(** * Entity resolution of company names and IBANs: the pipeline of pipeline.py

    A shallow embedding of the functions of [pipeline.py] and the properties
    its specification states about them.

    Conventions of the embedding.
    - A Python [str] is a [string]; its characters are the code points
      U+0000 to U+00FF, classified and case-mapped as Python does for them
      (the title-case forms of U+00B5 and U+00FF leave that range: see
      [PyStr.title_char]).
    - A data frame is the list of its rows, in index order; every column of
      the source is a field of the row record of the stage that has it (the
      column names of [config] are taken to be distinct).
      [pandas.read_csv] yields NaN for an empty cell: a raw cell is an
      [option string], [None] being NaN.
    - A Python set is a [gset]: its iteration order is not part of the model.
    - A call that can raise returns a [result].
    - [cleanco.basename], [fuzzywuzzy.fuzz.token_set_ratio] and the constant
      [INVALID] of [config] are parameters of the pipeline. *)

From Stdlib Require Import Ascii ZArith Lia.
From stdpp Require Import base option list sorting strings gmap.

Local Open Scope Z_scope.
Local Open Scope nat_scope.

(** ** Python's [str] *)

Module PyStr.

Definition ord (c : ascii) : N := N_of_ascii c.
Definition chr (n : N) : ascii := ascii_of_N n.

Definition between (lo hi n : N) : bool := ((lo <=? n) && (n <=? hi))%N.

Definition SPACE : ascii := " "%char.
Definition TAB : ascii := "009"%char.

(** [str.isspace] of one character, which is also what [\s] matches in a
    [str] pattern and what [strip()] and [split()] treat as whitespace. *)
Definition isspace (c : ascii) : bool :=
  let n := ord c in
  between 9 13 n || between 28 32 n || (n =? 133)%N || (n =? 160)%N.

(** [str.isalnum] of one character. *)
Definition isalnum (c : ascii) : bool :=
  let n := ord c in
  between 48 57 n || between 65 90 n || between 97 122 n
  || (n =? 170)%N || between 178 179 n || (n =? 181)%N
  || between 185 186 n || between 188 190 n
  || between 192 214 n || between 216 246 n || between 248 255 n.

(** What [\w] matches in a [str] pattern: alphanumerics and the underscore. *)
Definition isword (c : ascii) : bool :=
  isalnum c || (ord c =? 95)%N.

(** [str.lower] of one character. *)
Definition lower_char (c : ascii) : ascii :=
  let n := ord c in
  if between 65 90 n || (between 192 222 n && negb (n =? 215)%N)
  then chr (n + 32) else c.

(** The title-case form [str.capitalize] gives the first character: the
    capital of a lower-case letter, the two characters "Ss" for U+00DF,
    the character itself otherwise.  The title-case forms of U+00B5 and
    U+00FF, which are U+039C and U+0178, are not among the modelled code
    points; the two are left as they are here, and a statement that shows a
    capitalized string is made for the strings of [title_in_alphabet]
    only. *)
Definition title_char (c : ascii) : list ascii :=
  let n := ord c in
  if (n =? 223)%N then [chr 83; chr 115]
  else if between 97 122 n || (between 224 254 n && negb (n =? 247)%N)
  then [chr (n - 32)] else [c].

(** The characters of a string, and a function on character lists as a
    function on strings. *)
Definition chars (s : string) : list ascii := String.list_ascii_of_string s.

Definition lift (f : list ascii → list ascii) (s : string) : string :=
  String.string_of_list_ascii (f (chars s)).


(** [s.lower()] *)
Definition lower : string → string := lift (fmap lower_char).

(** [re.sub(r'[^\w\s]', '', s)] *)
Definition keep_word_space (l : list ascii) : list ascii :=
  filter (λ c, isword c || isspace c) l.
Definition sub_nonword_nonspace : string → string := lift keep_word_space.

(** [s.strip()] *)
Fixpoint lstrip_chars (l : list ascii) : list ascii :=
  match l with
  | c :: l' => if isspace c then lstrip_chars l' else l
  | [] => []
  end.
Fixpoint rstrip_chars (l : list ascii) : list ascii :=
  match l with
  | c :: l' =>
      match rstrip_chars l' with
      | [] => if isspace c then [] else [c]
      | r => c :: r
      end
  | [] => []
  end.
Definition strip_chars (l : list ascii) : list ascii :=
  rstrip_chars (lstrip_chars l).
Definition strip : string → string := lift strip_chars.

(** [re.sub(' +', ' ', s)]: every maximal run of U+0020 becomes one. *)
Fixpoint collapse_chars (l : list ascii) : list ascii :=
  match l with
  | c :: l' =>
      if decide (c = SPACE)
      then match l' with
           | c' :: _ => if decide (c' = SPACE) then collapse_chars l'
                        else c :: collapse_chars l'
           | [] => [c]
           end
      else c :: collapse_chars l'
  | [] => []
  end.
Definition sub_spaces_space : string → string := lift collapse_chars.

(** [re.sub(' +', '', s)]: every U+0020 is removed. *)
Definition remove_space_chars (l : list ascii) : list ascii :=
  filter (λ c, c ≠ SPACE) l.
Definition sub_spaces_empty : string → string := lift remove_space_chars.

(** [s[:-2]] and, on a list, [l[:-1]]: a slice never raises. *)
Definition drop_last {A} (n : nat) (l : list A) : list A :=
  take (length l - n) l.
Definition slice_to_minus2 : string → string := lift (drop_last 2).

(** [s.split()]: the maximal runs of characters that are not whitespace.
    [cur] is the token being read, last character first. *)
Definition flush (cur : list ascii) : list (list ascii) :=
  match cur with [] => [] | _ => [reverse cur] end.
Fixpoint split_chars (cur : list ascii) (l : list ascii) : list (list ascii) :=
  match l with
  | c :: l' =>
      if isspace c then flush cur ++ split_chars [] l'
      else split_chars (c :: cur) l'
  | [] => flush cur
  end.
Definition split (s : string) : list string :=
  String.string_of_list_ascii <$> split_chars [] (chars s).

(** [sep.join(l)] *)
Fixpoint join (sep : string) (l : list string) : string :=
  match l with
  | [] => ""
  | x :: l' => match l' with [] => x | _ => x +:+ sep +:+ join sep l' end
  end.

(** [s.capitalize()]: the first character in title case, the others in
    lower case. *)
Definition capitalize_chars (l : list ascii) : list ascii :=
  match l with
  | c :: l' => title_char c ++ (lower_char <$> l')
  | [] => []
  end.
Definition capitalize : string → string := lift capitalize_chars.

End PyStr.

(** ** Exceptions and results *)

(** The exceptions the modelled functions end with.  [AssertionError] is
    what the source raises itself, by its [assert] statements; the others
    come from inside numpy and from list indexing. *)
Inductive exception :=
  | AssertionError (msg : string)
  | ValueError
  | IndexError.

Inductive result (A : Type) :=
  | Ok (a : A)
  | Raise (e : exception).
Arguments Ok {A} a.
Arguments Raise {A} e.

Global Instance result_ret : MRet result := @Ok.
Global Instance result_bind : MBind result := λ A B f r,
  match r with Ok a => f a | Raise e => Raise e end.
Global Instance result_fmap : FMap result := λ A B f r,
  match r with Ok a => Ok (f a) | Raise e => Raise e end.

(** A failure the code signals itself, as opposed to an exception that
    escapes from a library call. *)
Definition precondition_signal {A} (r : result A) : Prop :=
  ∃ msg, r = Raise (AssertionError msg).

(** ** numpy and pandas *)

Module Pandas.

(** [numpy.argmax] on a one-dimensional array: the index of the first
    maximum; [ValueError] on an empty array. *)
Fixpoint argmax_from (best : Z) (best_i i : nat) (l : list Z) : nat :=
  match l with
  | x :: l' => if (best <? x)%Z then argmax_from x i (S i) l'
               else argmax_from best best_i (S i) l'
  | [] => best_i
  end.
Definition argmax (l : list Z) : result nat :=
  match l with
  | x :: l' => Ok (argmax_from x 0 1 l')
  | [] => Raise ValueError
  end.

(** [DataFrame.drop_duplicates(subset=...)] with the default
    [keep='first']: a row is dropped when the values [key] takes on it were
    seen on an earlier row. *)
Fixpoint drop_duplicates_from {A K} `{EqDecision K}
    (key : A → K) (seen : list K) (df : list A) : list A :=
  match df with
  | r :: df' =>
      if decide (key r ∈ seen) then drop_duplicates_from key seen df'
      else r :: drop_duplicates_from key (key r :: seen) df'
  | [] => []
  end.
Definition drop_duplicates {A K} `{EqDecision K} (key : A → K) : list A → list A :=
  drop_duplicates_from key [].

(** [Series.unique()]: the distinct values, in order of first appearance. *)
Definition unique {A} `{EqDecision A} : list A → list A :=
  drop_duplicates id.

End Pandas.

(** ** The frames of the pipeline *)

(** A row as [read_csv] hands it over: either cell may be NaN. *)
Record RawRow := {
  NAME_CELL : option string;
  IBAN_CELL : option string }.

(** A row whose two cells are strings, which is what [dropna] leaves. *)
Record Row := {
  NAME_COLUMN : string;
  IBAN_COLUMN : string }.

(** The rows of the later stages: each adds the columns its stage
    assigns. *)
Record NRow := {
  nrow_base :> Row;
  NORM_NAME : string }.

Record TRow := {
  trow_base :> NRow;
  NOT_BUSINESS_TERMS_NAME : string }.

Record KRow := {
  krow_base :> TRow;
  NORM_IBAN : string;
  NORM_NAME_IBAN : string;
  NOT_BUSINESS_TERMS_NAME_NORM_IBAN : string }.

Record MRow := {
  mrow_base :> KRow;
  COMPANY : string }.

(** A row of the grouped frame: the group's [COMPANY] value, which is the
    index of the frame, and the two aggregated cells, [list(set(x))]. *)
Record Entity := {
  group_key : string;
  names : gset string;
  ibans : gset string }.

Global Instance RawRow_eq_dec : EqDecision RawRow.
Proof. solve_decision. Defined.
Global Instance Row_eq_dec : EqDecision Row.
Proof. solve_decision. Defined.

Definition present (r : RawRow) : option Row :=
  match NAME_CELL r, IBAN_CELL r with
  | Some n, Some i => Some {| NAME_COLUMN := n; IBAN_COLUMN := i |}
  | _, _ => None
  end.

Definition as_raw (r : Row) : RawRow :=
  {| NAME_CELL := Some (NAME_COLUMN r); IBAN_CELL := Some (IBAN_COLUMN r) |}.

(** ** The functions of pipeline.py *)

Import PyStr Pandas.

Section Pipeline.

(** The constant [INVALID] of [config], [cleanco.basename] and
    [fuzzywuzzy.fuzz.token_set_ratio]. *)
Variable INVALID : string.
Variable basename : string → string.
Variable token_set_ratio : string → string → Z.

(** The files [read_data] can be asked for: a path is mapped to the frame
    [read_csv] parses from the file at it. *)
Definition read_data (files : gmap string (list RawRow)) (file_path : string)
    : result (list RawRow) :=
  match files !! file_path with
  | Some data => Ok data
  | None => Raise (AssertionError "Input file does not exist")
  end.

(** [dropna] keeps the rows whose two cells are not NaN; [drop] then
    removes the rows whose identifier is [INVALID]. *)
Definition remove_anomaly_data (dataframe : list RawRow) : list Row :=
  let dataframe := omap present dataframe in
  filter (λ r, IBAN_COLUMN r ≠ INVALID) dataframe.

Definition normalize_text (text : string) : string :=
  let text := lower text in
  let text := sub_nonword_nonspace text in
  let text := strip text in
  let text := sub_spaces_space text in
  text.

Definition normalize_name_company (dataframe : list Row) : list NRow :=
  (λ r, {| nrow_base := r; NORM_NAME := normalize_text (NAME_COLUMN r) |})
    <$> dataframe.

Definition remove_duplicates (dataframe : list NRow) : list NRow :=
  drop_duplicates (λ r : NRow, (NORM_NAME r, IBAN_COLUMN r)) dataframe.

Definition process_duplicate_removal
    (files : gmap string (list RawRow)) (file_path : string)
    : result (list NRow) :=
  data ← read_data files file_path;
  let data := remove_anomaly_data data in
  let data := normalize_name_company data in
  let data := remove_duplicates data in
  mret data.

Definition remove_business_terms (text : string) : string :=
  let text := basename text in
  let text := strip text in
  let text := sub_spaces_space text in
  text.

Definition remove_terms_name_company (dataframe : list NRow) : list TRow :=
  (λ r, {| trow_base := r;
           NOT_BUSINESS_TERMS_NAME := remove_business_terms (NORM_NAME r) |})
    <$> dataframe.

Definition remove_last_digits_iban (iban : string) : string :=
  let iban := sub_spaces_empty iban in
  let iban := slice_to_minus2 iban in
  let iban := strip iban in
  iban.

Definition generate_name_iban_normalized (dataframe : list TRow) : list KRow :=
  (λ r : TRow,
     let norm_iban := remove_last_digits_iban (IBAN_COLUMN r) in
     {| krow_base := r;
        NORM_IBAN := norm_iban;
        NORM_NAME_IBAN := NORM_NAME r +:+ " " +:+ IBAN_COLUMN r;
        NOT_BUSINESS_TERMS_NAME_NORM_IBAN :=
          NOT_BUSINESS_TERMS_NAME r +:+ " " +:+ norm_iban |})
    <$> dataframe.

Definition get_uniques_name_plus_iban (dataframe : list KRow) : list string :=
  unique (NOT_BUSINESS_TERMS_NAME_NORM_IBAN <$> dataframe).

Definition get_company_match (actual_company : string)
    (unique_companies : list string) : result string :=
  let match_values :=
    (λ unique_company, token_set_ratio unique_company actual_company)
      <$> unique_companies in
  i ← argmax match_values;
  match unique_companies !! i with
  | Some best =>
      let company := drop_last 1 (split best) in
      mret (capitalize (join " " company))
  | None => Raise IndexError
  end.

Definition generate_company_match (dataframe : list KRow)
    (unique_company_name_iban : list string) : result (list MRow) :=
  mapM (λ r : KRow,
          c ← get_company_match (NORM_NAME_IBAN r) unique_company_name_iban;
          mret {| mrow_base := r; COMPANY := c |})
       dataframe.

(** The row [agg] makes of the group of the [COMPANY] value [k]. *)
Definition group_of (dataframe : list MRow) (k : string) : Entity :=
  let group := filter (λ r : MRow, COMPANY r = k) dataframe in
  {| group_key := k;
     names := list_to_set ((λ r : MRow, NAME_COLUMN r) <$> group);
     ibans := list_to_set ((λ r : MRow, IBAN_COLUMN r) <$> group) |}.

(** [groupby] sorts the group keys. *)
Definition generate_group_by_company (dataframe : list MRow) : list Entity :=
  group_of dataframe <$> merge_sort String.le (unique (COMPANY <$> dataframe)).

Definition process_entity_resolution (dataframe : list NRow)
    : result (list Entity) :=
  let dataframe := remove_terms_name_company dataframe in
  let dataframe := generate_name_iban_normalized dataframe in
  let uniques_name_plus_iban := get_uniques_name_plus_iban dataframe in
  dataframe ← generate_company_match dataframe uniques_name_plus_iban;
  let result_dataframe := generate_group_by_company dataframe in
  mret result_dataframe.

End Pipeline.

(** ** The data model of the specification *)

(** The two composite keys of a record, spelled from its columns. *)
Definition full_key (r : NRow) : string :=
  NORM_NAME r +:+ " " +:+ IBAN_COLUMN r.

Definition canonical_candidate_key (basename : string → string) (r : NRow)
    : string :=
  remove_business_terms basename (NORM_NAME r)
    +:+ " " +:+ remove_last_digits_iban (IBAN_COLUMN r).

(** The truncation as the specification words it: all whitespace removed,
    then the last two characters dropped. *)
Definition remove_whitespace_chars (l : list ascii) : list ascii :=
  filter (λ c, ¬ isspace c) l.
Definition spec_truncate_identifier : string → string :=
  lift (λ l, drop_last 2 (remove_whitespace_chars l)).


(** The display name as [get_company_match] computes it. *)
Definition display_name (key : string) : string :=
  capitalize (join " " (drop_last 1 (split key))).

(** What [normalize_text] does to the characters of its argument. *)
Definition normalize_chars (l : list ascii) : list ascii :=
  collapse_chars (strip_chars (keep_word_space (lower_char <$> l))).

(** The shape of a normalized text. *)
Definition lowercase_alnum_or_space (c : ascii) : Prop :=
  (isalnum c ∧ lower_char c = c) ∨ c = SPACE.
Definition lowercase_word_or_whitespace (c : ascii) : Prop :=
  lower_char c = c ∧ (isword c ∨ isspace c).
Definition no_outer_whitespace (l : list ascii) : Prop :=
  (∀ c, head l = Some c → ¬ isspace c) ∧ (∀ c, last l = Some c → ¬ isspace c).
Definition no_adjacent (P : ascii → Prop) (l : list ascii) : Prop :=
  ∀ i c c', l !! i = Some c → l !! S i = Some c' → P c → ¬ P c'.
Fixpoint single_spaced (l : list ascii) : Prop :=
  match l with
  | c :: l' => (c = SPACE → head l' ≠ Some SPACE) ∧ single_spaced l'
  | [] => True
  end.

(** The member of [unique_companies] that scores best against
    [actual_company], the first one among equals: it sits at index [i]. *)
Definition best_match_at (token_set_ratio : string → string → Z)
    (actual_company : string) (unique_companies : list string)
    (i : nat) (best : string) : Prop :=
  unique_companies !! i = Some best
  ∧ (∀ j m, unique_companies !! j = Some m →
       (token_set_ratio m actual_company ≤ token_set_ratio best actual_company)%Z)
  ∧ (∀ j m, j < i → unique_companies !! j = Some m →
       (token_set_ratio m actual_company < token_set_ratio best actual_company)%Z).

(** ** Stand-ins for the two library functions, for concrete runs *)

(** Modelled from the spec: the business-term lexicon, which the code takes
    from the cleanco package; the tokens at the end of the text that are in
    the lexicon are removed. *)
Definition business_term_lexicon : list string :=
  ["gmbh"; "corp"; "ltd"; "inc"].
Fixpoint drop_leading_terms (tokens : list string) : list string :=
  match tokens with
  | t :: ts => if decide (t ∈ business_term_lexicon)
               then drop_leading_terms ts else tokens
  | [] => []
  end.
Definition lexicon_basename (text : string) : string :=
  join " " (reverse (drop_leading_terms (reverse (split text)))).

(** A scorer that tells equal strings from different ones. *)
Definition exact_match_ratio (s1 s2 : string) : Z :=
  if decide (s1 = s2) then 100%Z else 0%Z.

(** The rows of the scenario of the specification. *)
Definition acme_rows : list RawRow :=
  [ {| NAME_CELL := Some "Acme Corp"; IBAN_CELL := Some "DE001" |};
    {| NAME_CELL := Some "ACME GMBH"; IBAN_CELL := Some "DE002" |};
    {| NAME_CELL := Some "acme"; IBAN_CELL := Some "DE003" |} ].

Definition acme_files : gmap string (list RawRow) :=
  {[ "input.csv" := acme_rows ]}.

Definition tabbed (l r : string) : string := l +:+ String TAB r.

(** ** Auxiliary definitions of the proofs *)

(** What duplicate removal does to one raw row before it looks for
    duplicates: [None] when the row is dropped. *)
Definition clean_row (INVALID : string) (raw : RawRow) : option NRow :=
  r ← present raw;
  if decide (IBAN_COLUMN r ≠ INVALID)
  then Some {| nrow_base := r; NORM_NAME := normalize_text (NAME_COLUMN r) |}
  else None.

(** The frame and the universe [process_entity_resolution] hands to
    [generate_company_match]. *)
Definition keyed_frame (basename : string → string) (dataframe : list NRow)
    : list KRow :=
  generate_name_iban_normalized (remove_terms_name_company basename dataframe).

Definition canonical_universe (basename : string → string)
    (dataframe : list NRow) : list string :=
  get_uniques_name_plus_iban (keyed_frame basename dataframe).

(** Records and frames of the examples. *)
Definition normalized (name iban norm_name : string) : NRow :=
  {| nrow_base := {| NAME_COLUMN := name; IBAN_COLUMN := iban |};
     NORM_NAME := norm_name |}.

Definition acme_deduplicated : list NRow :=
  [ normalized "Acme Corp" "DE001" "acme corp";
    normalized "ACME GMBH" "DE002" "acme gmbh";
    normalized "acme" "DE003" "acme" ].

Definition acme_entity : Entity :=
  {| group_key := "Acme";
     names := {[ "Acme Corp"; "ACME GMBH"; "acme" ]};
     ibans := {[ "DE001"; "DE002"; "DE003" ]} |}.

Definition acme_alone : list NRow := [ normalized "acme" "DE003" "acme" ].

Definition alpha_beta : list NRow :=
  [ normalized "alpha" "DE001" "alpha"; normalized "beta" "DE002" "beta" ].

(** A resolved record whose name is already normalized and free of
    business terms. *)
Definition resolved (name iban company : string) : MRow :=
  {| mrow_base :=
       {| krow_base :=
            {| trow_base := normalized name iban name;
               NOT_BUSINESS_TERMS_NAME := name |};
          NORM_IBAN := remove_last_digits_iban iban;
          NORM_NAME_IBAN := name +:+ " " +:+ iban;
          NOT_BUSINESS_TERMS_NAME_NORM_IBAN :=
            name +:+ " " +:+ remove_last_digits_iban iban |};
     COMPANY := company |}.

(** * Properties *)

(** ** Characters and strings *)

Section Strings.

Lemma lower_char_idemp c : lower_char (lower_char c) = lower_char c.
Proof. by destruct c as [[] [] [] [] [] [] [] []]. Qed.

Lemma capitalize_sharp_s :
  capitalize (String (chr 223) "eta") = "Sseta"
  ∧ capitalize "acme corp" = "Acme corp"
  ∧ capitalize "a B" = "A b".
Proof. done. Qed.

Lemma chars_of_list l : chars (String.string_of_list_ascii l) = l.
Proof. apply String.list_ascii_of_string_of_list_ascii. Qed.

Lemma of_list_chars s : String.string_of_list_ascii (chars s) = s.
Proof. apply String.string_of_list_ascii_of_string. Qed.

Lemma chars_lift f s : chars (lift f s) = f (chars s).
Proof. apply chars_of_list. Qed.

Lemma chars_inj s1 s2 : chars s1 = chars s2 → s1 = s2.
Proof. intros H. by rewrite <-(of_list_chars s1), H, of_list_chars. Qed.

Lemma length_chars s : length (chars s) = String.length s.
Proof. induction s; simpl; by f_equal. Qed.

Lemma normalize_text_chars text :
  chars (normalize_text text) = normalize_chars (chars text).
Proof.
  unfold normalize_text, sub_spaces_space, strip, sub_nonword_nonspace, lower.
  by rewrite !chars_lift.
Qed.

End Strings.

(** ** Normalization and truncation *)

Section Normalize.

Implicit Types (l : list ascii) (c : ascii).

Lemma lstrip_chars_head l c : head (lstrip_chars l) = Some c → ¬ isspace c.
Proof.
  induction l as [|x l IH]; simpl; [intros [=]|].
  destruct (isspace x) eqn:Hx; [apply IH|].
  simpl. intros [= <-]. by apply Is_true_false_2.
Qed.

Lemma lstrip_chars_fixed l :
  (∀ c, head l = Some c → ¬ isspace c) → lstrip_chars l = l.
Proof.
  destruct l as [|x l]; simpl; [done|]. intros H.
  destruct (isspace x) eqn:Hx; [|done].
  destruct (H x); [done|]. by apply Is_true_true_2.
Qed.

Lemma lstrip_chars_sublist l : lstrip_chars l `sublist_of` l.
Proof.
  induction l as [|x l IH]; simpl; [done|].
  destruct (isspace x); [by apply sublist_cons|done].
Qed.

Lemma rstrip_chars_cons c l :
  ¬ isspace c → rstrip_chars (c :: l) = c :: rstrip_chars l.
Proof.
  intros Hc. simpl. destruct (rstrip_chars l); [|done].
  by destruct (isspace c).
Qed.

Lemma rstrip_chars_last l c : last (rstrip_chars l) = Some c → ¬ isspace c.
Proof.
  induction l as [|x l IH]; simpl; [intros [=]|].
  destruct (rstrip_chars l) as [|y r] eqn:Hr.
  - destruct (isspace x) eqn:Hx; [intros [=]|].
    simpl. intros [= <-]. by apply Is_true_false_2.
  - intros H. apply IH. by rewrite <-H.
Qed.

Lemma rstrip_chars_fixed l :
  (∀ c, last l = Some c → ¬ isspace c) → rstrip_chars l = l.
Proof.
  induction l as [|x l IH]; simpl; [done|]. intros H.
  destruct l as [|y l].
  - simpl. destruct (isspace x) eqn:Hx; [|done].
    destruct (H x); [done|]. by apply Is_true_true_2.
  - rewrite IH; [done|]. intros c Hc. by apply H.
Qed.

Lemma rstrip_chars_sublist l : rstrip_chars l `sublist_of` l.
Proof.
  induction l as [|x l IH]; simpl; [done|].
  destruct (rstrip_chars l) as [|y r].
  - destruct (isspace x); [apply sublist_nil_l|].
    apply sublist_skip, sublist_nil_l.
  - by apply sublist_skip.
Qed.

Lemma strip_chars_no_outer l : no_outer_whitespace (strip_chars l).
Proof.
  unfold strip_chars. split; [|apply rstrip_chars_last].
  intros c. pose proof (lstrip_chars_head l) as Hh.
  destruct (lstrip_chars l) as [|x k]; [done|].
  rewrite rstrip_chars_cons by by apply Hh.
  simpl. intros [= ->]. by apply Hh.
Qed.

Lemma strip_chars_fixed l : no_outer_whitespace l → strip_chars l = l.
Proof.
  intros [Hh Hl]. unfold strip_chars.
  rewrite lstrip_chars_fixed by done. by apply rstrip_chars_fixed.
Qed.

Lemma strip_chars_sublist l : strip_chars l `sublist_of` l.
Proof.
  unfold strip_chars. etrans; [apply rstrip_chars_sublist|].
  apply lstrip_chars_sublist.
Qed.

Lemma collapse_chars_cons_cons x y l :
  collapse_chars (x :: y :: l) =
    if decide (x = SPACE ∧ y = SPACE) then collapse_chars (y :: l)
    else x :: collapse_chars (y :: l).
Proof.
  change (collapse_chars (x :: y :: l)) with
    (if decide (x = SPACE)
     then if decide (y = SPACE) then collapse_chars (y :: l)
          else x :: collapse_chars (y :: l)
     else x :: collapse_chars (y :: l)).
  destruct (decide (x = SPACE)), (decide (y = SPACE)),
    (decide (x = SPACE ∧ y = SPACE)); try done; exfalso; tauto.
Qed.

Lemma collapse_chars_singleton x : collapse_chars [x] = [x].
Proof. simpl. by case_decide. Qed.

Lemma collapse_chars_head l : head (collapse_chars l) = head l.
Proof.
  induction l as [|x [|y l] IH]; [done|by rewrite collapse_chars_singleton|].
  rewrite collapse_chars_cons_cons. case_decide as H; [|done].
  rewrite IH. destruct H as [-> ->]. done.
Qed.

Lemma collapse_chars_last l : last (collapse_chars l) = last l.
Proof.
  induction l as [|x [|y l] IH]; [done|by rewrite collapse_chars_singleton|].
  rewrite collapse_chars_cons_cons, last_cons_cons, <-IH.
  case_decide; [done|].
  pose proof (collapse_chars_head (y :: l)) as Hh.
  by destruct (collapse_chars (y :: l)).
Qed.

Lemma collapse_chars_single_spaced l : single_spaced (collapse_chars l).
Proof.
  induction l as [|x [|y l] IH]; [done|by rewrite collapse_chars_singleton|].
  rewrite collapse_chars_cons_cons. case_decide as H; [done|].
  split; [|done]. rewrite collapse_chars_head. simpl. naive_solver.
Qed.

Lemma collapse_chars_fixed l : single_spaced l → collapse_chars l = l.
Proof.
  induction l as [|x [|y l] IH]; [done|by rewrite collapse_chars_singleton|].
  intros [Hx Hl]. rewrite collapse_chars_cons_cons.
  case_decide as H; [|by rewrite IH].
  destruct H as [-> ->]. by destruct Hx.
Qed.

Lemma collapse_chars_sublist l : collapse_chars l `sublist_of` l.
Proof.
  induction l as [|x [|y l] IH]; [done|by rewrite collapse_chars_singleton|].
  rewrite collapse_chars_cons_cons.
  case_decide; [by apply sublist_cons|by apply sublist_skip].
Qed.

Lemma single_spaced_no_adjacent l :
  single_spaced l → no_adjacent (λ c, c = SPACE) l.
Proof.
  induction l as [|x l IH]; intros Hs i c c' Hi Hi' Hc; [done|].
  destruct Hs as [Hx Hl]. destruct i as [|i].
  - simpl in *. injection Hi as ->. intros ->. apply (Hx Hc).
    by destruct l; simplify_eq/=.
  - by apply (IH Hl i c c').
Qed.

Lemma keep_word_space_lower l :
  Forall lowercase_word_or_whitespace (keep_word_space (lower_char <$> l)).
Proof.
  apply Forall_forall. intros c Hc.
  apply list_elem_of_filter in Hc as [Hw Hc].
  apply list_elem_of_fmap in Hc as (c0 & -> & _).
  split; [apply lower_char_idemp|].
  apply orb_True in Hw. by destruct Hw; [left|right].
Qed.

Lemma normalize_chars_sublist l :
  normalize_chars l `sublist_of` keep_word_space (lower_char <$> l).
Proof.
  unfold normalize_chars. etrans; [apply collapse_chars_sublist|].
  apply strip_chars_sublist.
Qed.

Lemma normalize_chars_shape l :
  Forall lowercase_word_or_whitespace (normalize_chars l)
  ∧ no_outer_whitespace (normalize_chars l)
  ∧ single_spaced (normalize_chars l).
Proof.
  split_and!.
  - apply Forall_forall. intros c Hc.
    eapply Forall_forall; [apply (keep_word_space_lower l)|].
    eapply elem_of_sublist; [done|apply normalize_chars_sublist].
  - unfold normalize_chars.
    destruct (strip_chars_no_outer (keep_word_space (lower_char <$> l))) as [Hh Hl].
    split; intros c; [rewrite collapse_chars_head|rewrite collapse_chars_last]; auto.
  - apply collapse_chars_single_spaced.
Qed.

Lemma normalize_chars_fixed l :
  Forall lowercase_word_or_whitespace l → no_outer_whitespace l →
  single_spaced l → normalize_chars l = l.
Proof.
  intros Hall Hout Hsp. unfold normalize_chars.
  assert (lower_char <$> l = l) as ->.
  { clear Hout Hsp. induction Hall as [|c k [Hc _] _ IH]; [done|].
    by rewrite fmap_cons, Hc, IH. }
  assert (keep_word_space l = l) as ->.
  { clear Hout Hsp. unfold keep_word_space.
    induction Hall as [|c k [_ Hc] _ IH]; [done|].
    rewrite filter_cons_True, IH; [done|]. by apply orb_True. }
  rewrite strip_chars_fixed by done. by apply collapse_chars_fixed.
Qed.

Lemma normalize_chars_idemp l :
  normalize_chars (normalize_chars l) = normalize_chars l.
Proof.
  destruct (normalize_chars_shape l) as (? & ? & ?).
  by apply normalize_chars_fixed.
Qed.

Lemma strip_chars_no_whitespace l :
  Forall (λ c, ¬ isspace c) l → strip_chars l = l.
Proof.
  intros H. apply strip_chars_fixed. rewrite Forall_forall in H.
  split; intros c Hc; apply H.
  - by apply head_Some_elem_of.
  - by apply last_Some_elem_of.
Qed.

Lemma filter_fixed {A} (P : A → Prop) `{!∀ x, Decision (P x)} (k : list A) :
  Forall P k → filter P k = k.
Proof.
  induction 1 as [|x k Hx _ IH]; [done|]. by rewrite filter_cons_True, IH.
Qed.

Lemma filter_agree {A} (P Q : A → Prop)
    `{!∀ x, Decision (P x)} `{!∀ x, Decision (Q x)} (k : list A) :
  Forall (λ x, P x ↔ Q x) k → filter P k = filter Q k.
Proof.
  induction 1 as [|x k Hx _ IH]; [done|].
  rewrite !filter_cons, IH. repeat case_decide; tauto.
Qed.

Lemma remove_last_digits_iban_chars iban :
  chars (remove_last_digits_iban iban)
  = strip_chars (drop_last 2 (remove_space_chars (chars iban))).
Proof.
  unfold remove_last_digits_iban, strip, slice_to_minus2, sub_spaces_empty.
  by rewrite !chars_lift.
Qed.

Lemma remove_whitespace_chars_clean l :
  Forall (λ c, ¬ isspace c) (remove_whitespace_chars l).
Proof.
  apply Forall_forall. intros c Hc.
  by apply list_elem_of_filter in Hc as [? _].
Qed.

Lemma truncate_space_only l :
  Forall (λ c, isspace c → c = SPACE) l →
  strip_chars (drop_last 2 (remove_space_chars l))
  = drop_last 2 (remove_whitespace_chars l).
Proof.
  intros H.
  assert (remove_space_chars l = remove_whitespace_chars l) as ->.
  { apply filter_agree. eapply Forall_impl; [exact H|].
    intros c Hc; simpl. split; [|by intros ? ->].
    intros Hne Hs. by apply Hne, Hc. }
  apply strip_chars_no_whitespace, Forall_take, remove_whitespace_chars_clean.
Qed.

Lemma truncate_no_whitespace l :
  Forall (λ c, ¬ isspace c) l →
  strip_chars (drop_last 2 (remove_space_chars l)) = drop_last 2 l.
Proof.
  intros H.
  assert (remove_space_chars l = l) as ->.
  { apply filter_fixed. eapply Forall_impl; [exact H|].
    by intros c Hc ->. }
  by apply strip_chars_no_whitespace, Forall_take.
Qed.

(** C9 (confirmed). [normalize_text] is idempotent: normalizing a normalized
    text gives it back. *)
Theorem normalize_text_idempotent s :
  normalize_text (normalize_text s) = normalize_text s.
Proof.
  apply chars_inj. rewrite !normalize_text_chars. apply normalize_chars_idemp.
Qed.

(** C7 (as amended). For every input string, [normalize_text] returns a
    string whose characters are unchanged by lowercasing and are word
    characters (alphanumerics or the underscore) or whitespace, with no
    whitespace at either end and no two U+0020 spaces next to each other. *)
Theorem normalize_text_shape text :
  Forall lowercase_word_or_whitespace (chars (normalize_text text))
  ∧ no_outer_whitespace (chars (normalize_text text))
  ∧ no_adjacent (λ c, c = SPACE) (chars (normalize_text text)).
Proof.
  rewrite normalize_text_chars.
  destruct (normalize_chars_shape (chars text)) as (? & ? & ?).
  auto using single_spaced_no_adjacent.
Qed.

(** C7 (as stated) fails: an underscore survives, and so does a run of two
    tabs between words. *)
Lemma normalize_text_keeps_underscore_and_tabs :
  normalize_text "a_b" = "a_b"
  ∧ ¬ Forall lowercase_alnum_or_space (chars (normalize_text "a_b"))
  ∧ normalize_text (tabbed "a" (tabbed "" "b")) = tabbed "a" (tabbed "" "b")
  ∧ ¬ no_adjacent (λ c, isspace c)
        (chars (normalize_text (tabbed "a" (tabbed "" "b")))).
Proof.
  split_and!; [done| |done|].
  - intros H. apply Forall_cons_1 in H as [_ H].
    apply Forall_cons_1 in H as [[[H _]|H] _]; [done|discriminate H].
  - intros H. by apply (H 1 TAB TAB).
Qed.

(** C6 (as amended). [remove_last_digits_iban] removes every U+0020 space,
    drops the last two characters and strips the whitespace left at the
    ends.  On an identifier whose only whitespace is U+0020 this is: all
    whitespace removed, then the last two characters dropped.  On a
    whitespace-free identifier of length at least 2 the result is two
    characters shorter.  On an identifier with fewer than two characters
    other than U+0020 the result is the empty string. *)
Theorem remove_last_digits_iban_spec iban :
  chars (remove_last_digits_iban iban)
    = strip_chars (drop_last 2 (filter (λ c, c ≠ SPACE) (chars iban)))
  ∧ (Forall (λ c, isspace c → c = SPACE) (chars iban) →
     remove_last_digits_iban iban = spec_truncate_identifier iban)
  ∧ (Forall (λ c, ¬ isspace c) (chars iban) → 2 ≤ String.length iban →
     String.length (remove_last_digits_iban iban) = String.length iban - 2)
  ∧ (String.length (sub_spaces_empty iban) < 2 →
     remove_last_digits_iban iban = "").
Proof.
  split_and!.
  - apply remove_last_digits_iban_chars.
  - intros H. apply chars_inj.
    rewrite remove_last_digits_iban_chars. unfold spec_truncate_identifier.
    rewrite chars_lift. by apply truncate_space_only.
  - intros H Hlen. rewrite <-!length_chars, remove_last_digits_iban_chars.
    rewrite truncate_no_whitespace by done.
    unfold drop_last. rewrite length_take. lia.
  - rewrite <-length_chars. unfold sub_spaces_empty. rewrite chars_lift.
    intros Hlen. apply chars_inj. rewrite remove_last_digits_iban_chars.
    unfold drop_last.
    by replace (length (remove_space_chars (chars iban)) - 2) with 0 by lia.
Qed.

Lemma remove_last_digits_iban_spec_witness :
  remove_last_digits_iban "DE 12 345" = spec_truncate_identifier "DE 12 345"
  ∧ String.length (remove_last_digits_iban "DE001") = String.length "DE001" - 2
  ∧ remove_last_digits_iban " 7 " = "".
Proof.
  split_and!.
  - apply (remove_last_digits_iban_spec "DE 12 345").
    apply (bool_decide_unpack _). by vm_compute.
  - apply (remove_last_digits_iban_spec "DE001"); [|simpl; lia].
    apply (bool_decide_unpack _). by vm_compute.
  - apply (remove_last_digits_iban_spec " 7 "). simpl. lia.
Defined.

(** C6 (as stated) fails: a tab inside the identifier is not removed, and
    an identifier with one character other than whitespace can come back
    non-empty. *)
Lemma remove_last_digits_iban_keeps_tabs :
  remove_last_digits_iban (tabbed "A" "BCD") = tabbed "A" "B"
  ∧ spec_truncate_identifier (tabbed "A" "BCD") = "AB"
  ∧ String.length (lift remove_whitespace_chars (tabbed "A" (tabbed "" ""))) < 2
  ∧ remove_last_digits_iban (tabbed "A" (tabbed "" "")) = "A".
Proof. split_and!; try done. simpl. lia. Qed.

End Normalize.

(** ** Duplicates *)

Section DropDuplicates.

Context {A K : Type} `{EqDecision K} (key : A → K).
Implicit Types (df : list A) (seen : list K).

Lemma drop_duplicates_from_sublist seen df :
  drop_duplicates_from key seen df `sublist_of` df.
Proof.
  revert seen. induction df as [|r df IH]; intros seen; simpl; [done|].
  case_decide; [by apply sublist_cons|by apply sublist_skip].
Qed.

Lemma drop_duplicates_from_fresh seen df r :
  r ∈ drop_duplicates_from key seen df → key r ∉ seen.
Proof.
  revert seen. induction df as [|r0 df IH]; intros seen; simpl; [by intros ?%elem_of_nil|].
  case_decide as Hseen; [apply IH|].
  intros [->|Hr]%elem_of_cons; [done|].
  apply IH in Hr. by apply not_elem_of_cons in Hr as [_ ?].
Qed.

Lemma drop_duplicates_from_NoDup seen df :
  NoDup (key <$> drop_duplicates_from key seen df).
Proof.
  revert seen. induction df as [|r df IH]; intros seen; simpl; [apply NoDup_nil_2|].
  case_decide as Hseen; [apply IH|].
  rewrite fmap_cons. apply NoDup_cons_2; [|apply IH].
  intros (r' & Hk & Hr')%list_elem_of_fmap.
  apply drop_duplicates_from_fresh in Hr'. apply Hr'. rewrite <-Hk. by left.
Qed.

Lemma drop_duplicates_from_first seen df r :
  r ∈ drop_duplicates_from key seen df →
  ∃ pre post, df = pre ++ r :: post ∧ ∀ r', r' ∈ pre → key r' ≠ key r.
Proof.
  revert seen. induction df as [|r0 df IH]; intros seen; simpl; [by intros ?%elem_of_nil|].
  case_decide as Hseen.
  - intros Hr. pose proof (drop_duplicates_from_fresh _ _ _ Hr) as Hfresh.
    destruct (IH _ Hr) as (pre & post & -> & Hpre).
    exists (r0 :: pre), post. split; [done|].
    intros r' [->|Hr']%elem_of_cons; [congruence|by apply Hpre].
  - intros [->|Hr]%elem_of_cons.
    + exists [], df. split; [done|]. by intros ? ?%elem_of_nil.
    + pose proof (drop_duplicates_from_fresh _ _ _ Hr) as Hfresh.
      destruct (IH _ Hr) as (pre & post & -> & Hpre).
      exists (r0 :: pre), post. split; [done|].
      intros r' [->|Hr']%elem_of_cons; [|by apply Hpre].
      intros Heq. apply Hfresh. rewrite <-Heq. by left.
Qed.

Lemma drop_duplicates_from_complete seen df r :
  r ∈ df → key r ∉ seen → key r ∈ key <$> drop_duplicates_from key seen df.
Proof.
  revert seen. induction df as [|r0 df IH]; intros seen; simpl; [by intros ?%elem_of_nil|].
  intros Hr Hfresh. case_decide as Hseen.
  - apply elem_of_cons in Hr as [->|Hr]; [done|by apply IH].
  - rewrite fmap_cons. destruct (decide (key r = key r0)) as [->|Hne]; [by left|].
    right. apply elem_of_cons in Hr as [->|Hr]; [done|].
    apply IH; [done|]. by apply not_elem_of_cons.
Qed.

End DropDuplicates.

Section Unique.

Context {A : Type} `{EqDecision A}.

Lemma unique_NoDup (l : list A) : NoDup (unique l).
Proof.
  pose proof (drop_duplicates_from_NoDup (@id A) [] l) as H.
  by rewrite list_fmap_id in H.
Qed.

Lemma elem_of_unique (l : list A) x : x ∈ unique l ↔ x ∈ l.
Proof.
  split.
  - intros H. eapply elem_of_sublist; [done|].
    apply drop_duplicates_from_sublist.
  - intros H.
    pose proof (drop_duplicates_from_complete (@id A) [] l x H) as H'.
    rewrite list_fmap_id in H'. apply H'. apply not_elem_of_nil.
Qed.

End Unique.

(** ** Duplicate removal *)

Section DuplicateRemovalProps.

Variable INVALID : string.

Lemma present_as_raw raw r : present raw = Some r ↔ raw = as_raw r.
Proof.
  destruct raw as [[n|] [i|]], r as [n' i']; unfold present, as_raw; simpl;
    naive_solver.
Qed.

Lemma clean_row_Some raw r :
  clean_row INVALID raw = Some r ↔
    raw = as_raw r ∧ IBAN_COLUMN r ≠ INVALID
    ∧ NORM_NAME r = normalize_text (NAME_COLUMN r).
Proof.
  unfold clean_row. split.
  - destruct (present raw) as [r0|] eqn:Hp; [|done]. simpl.
    case_decide as Hi; [|done]. intros [= <-]. simpl.
    by apply present_as_raw in Hp.
  - intros (-> & Hi & Hn).
    assert (present (as_raw r) = Some (nrow_base r)) as -> by by apply present_as_raw.
    simpl. rewrite decide_True by done. destruct r as [b n]. simpl in *. by subst.
Qed.

Lemma anomaly_free_normalized data :
  normalize_name_company (remove_anomaly_data INVALID data)
  = omap (clean_row INVALID) data.
Proof.
  unfold normalize_name_company, remove_anomaly_data, clean_row.
  induction data as [|raw data IH]; [done|]. cbn [omap list_omap].
  destruct (present raw) as [r|]; cbn [mbind option_bind]; [|done].
  rewrite filter_cons. case_decide; [|done]. by rewrite fmap_cons, IH.
Qed.

Lemma omap_app_cons_inv {A B} (f : A → option B) (l : list A) pre y post :
  omap f l = pre ++ y :: post →
  ∃ pre0 x post0, l = pre0 ++ x :: post0 ∧ f x = Some y
    ∧ omap f pre0 = pre ∧ omap f post0 = post.
Proof.
  revert pre. induction l as [|x l IH]; intros pre; simpl.
  { by destruct pre. }
  destruct (f x) as [y'|] eqn:Hx.
  - destruct pre as [|p pre]; simpl.
    + intros [= -> <-]. exists [], x, l. by rewrite Hx.
    + intros [= -> H]. destruct (IH _ H) as (pre0 & x0 & post0 & -> & ? & ? & ?).
      exists (x :: pre0), x0, post0. simpl. rewrite Hx. naive_solver.
  - intros H. destruct (IH _ H) as (pre0 & x0 & post0 & -> & ? & ? & ?).
    exists (x :: pre0), x0, post0. simpl. rewrite Hx. naive_solver.
Qed.

Lemma omap_clean_row_sublist data :
  (λ r : NRow, as_raw r) <$> omap (clean_row INVALID) data `sublist_of` data.
Proof.
  induction data as [|raw data IH]; simpl; [done|].
  destruct (clean_row INVALID raw) as [r|] eqn:Hr; [|by apply sublist_cons].
  apply clean_row_Some in Hr as (-> & _). rewrite fmap_cons. by apply sublist_skip.
Qed.

(** C5 (confirmed). Every record [process_duplicate_removal] returns is a
    record of the input with both cells present and an identifier other
    than [INVALID]; the returned records have pairwise distinct
    (normalized name, identifier) pairs; they come in input order; and each
    is the first record of the input with its pair. *)
Theorem process_duplicate_removal_spec files file_path data :
  files !! file_path = Some data →
  ∃ out, process_duplicate_removal INVALID files file_path = Ok out
    ∧ (∀ r : NRow, r ∈ out →
         as_raw r ∈ data ∧ IBAN_COLUMN r ≠ INVALID
         ∧ NORM_NAME r = normalize_text (NAME_COLUMN r))
    ∧ NoDup ((λ r : NRow, (NORM_NAME r, IBAN_COLUMN r)) <$> out)
    ∧ (λ r : NRow, as_raw r) <$> out `sublist_of` data
    ∧ (∀ r : NRow, r ∈ out →
         ∃ pre post, data = pre ++ as_raw r :: post
           ∧ ∀ raw n i, raw ∈ pre →
               NAME_CELL raw = Some n → IBAN_CELL raw = Some i →
               (normalize_text n, i) ≠ (NORM_NAME r, IBAN_COLUMN r)).
Proof.
  intros Hfile. unfold process_duplicate_removal, read_data. rewrite Hfile.
  simpl. eexists; split; [done|].
  rewrite anomaly_free_normalized. unfold remove_duplicates, drop_duplicates.
  set (key := λ r : NRow, (NORM_NAME r, IBAN_COLUMN r)).
  set (out := drop_duplicates_from key [] (omap (clean_row INVALID) data)).
  assert (out `sublist_of` omap (clean_row INVALID) data) as Hsub
    by apply drop_duplicates_from_sublist.
  split_and!.
  - intros r Hr. eapply elem_of_sublist in Hr; [|exact Hsub].
    apply list_elem_of_omap in Hr as (raw & Hraw & Hc).
    apply clean_row_Some in Hc as (-> & ? & ?). done.
  - apply drop_duplicates_from_NoDup.
  - etrans; [|apply omap_clean_row_sublist]. by apply fmap_sublist.
  - intros r Hr.
    apply drop_duplicates_from_first in Hr as (pre & post & Heq & Hpre).
    apply omap_app_cons_inv in Heq as (pre0 & raw & post0 & -> & Hc & <- & _).
    apply clean_row_Some in Hc as (-> & Hi & Hn).
    exists pre0, post0. split; [done|].
    intros raw n i Hraw Hname Hiban Hkey.
    assert (i ≠ INVALID) as Hi' by (injection Hkey as _ ->; done).
    set (r' := {| nrow_base := {| NAME_COLUMN := n; IBAN_COLUMN := i |};
                  NORM_NAME := normalize_text n |}).
    assert (clean_row INVALID raw = Some r') as Hr'.
    { apply clean_row_Some. split_and!; [|done..].
      destruct raw as [? ?]. simpl in *. by subst. }
    apply (Hpre r'); [|done].
    apply list_elem_of_omap. by exists raw.
Qed.

End DuplicateRemovalProps.

(** ** Grouping and the best score *)

Section GroupBy.

Implicit Types (df : list MRow) (e : Entity) (r : MRow).

Lemma generate_group_by_company_groups df :
  generate_group_by_company df
  = group_of df <$> merge_sort String.le (unique (COMPANY <$> df)).
Proof. done. Qed.

Lemma group_keys df :
  group_key <$> generate_group_by_company df
  = merge_sort String.le (unique (COMPANY <$> df)).
Proof.
  rewrite generate_group_by_company_groups, <-list_fmap_compose.
  apply list_fmap_id.
Qed.

Lemma elem_of_group_keys df k :
  k ∈ group_key <$> generate_group_by_company df ↔ k ∈ COMPANY <$> df.
Proof. by rewrite group_keys, merge_sort_Permutation, elem_of_unique. Qed.

Lemma group_keys_NoDup df : NoDup (group_key <$> generate_group_by_company df).
Proof. rewrite group_keys, merge_sort_Permutation. apply unique_NoDup. Qed.

Lemma elem_of_groups df e :
  e ∈ generate_group_by_company df ↔
    e = group_of df (group_key e) ∧ group_key e ∈ COMPANY <$> df.
Proof.
  rewrite generate_group_by_company_groups, list_elem_of_fmap. split.
  - intros (k & -> & Hk). split; [done|].
    by rewrite merge_sort_Permutation, elem_of_unique in Hk.
  - intros [He Hk]. exists (group_key e). split; [done|].
    by rewrite merge_sort_Permutation, elem_of_unique.
Qed.

Lemma elem_of_group_names df k x :
  x ∈ names (group_of df k) ↔
    ∃ r, r ∈ df ∧ COMPANY r = k ∧ NAME_COLUMN r = x.
Proof.
  simpl. rewrite elem_of_list_to_set, list_elem_of_fmap.
  setoid_rewrite list_elem_of_filter.
  split; intros (r & ? & ? & ?); by exists r.
Qed.

Lemma elem_of_group_ibans df k x :
  x ∈ ibans (group_of df k) ↔
    ∃ r, r ∈ df ∧ COMPANY r = k ∧ IBAN_COLUMN r = x.
Proof.
  simpl. rewrite elem_of_list_to_set, list_elem_of_fmap.
  setoid_rewrite list_elem_of_filter.
  split; intros (r & ? & ? & ?); by exists r.
Qed.

Lemma group_of_record df r :
  r ∈ df →
  ∃ e, e ∈ generate_group_by_company df ∧ group_key e = COMPANY r
    ∧ NAME_COLUMN r ∈ names e ∧ IBAN_COLUMN r ∈ ibans e
    ∧ ∀ e', e' ∈ generate_group_by_company df →
        group_key e' = COMPANY r → e' = e.
Proof.
  intros Hr. exists (group_of df (COMPANY r)). split_and!.
  - apply elem_of_groups. split; [done|]. simpl.
    apply list_elem_of_fmap. by exists r.
  - done.
  - apply elem_of_group_names. by exists r.
  - apply elem_of_group_ibans. by exists r.
  - intros e' [-> _]%elem_of_groups Hk. simpl in Hk. by rewrite Hk.
Qed.

(** C8 (confirmed). The observed names of all the entities
    [generate_group_by_company] returns are, together, the names of its
    input; every input record belongs to exactly one entity, the one of its
    [COMPANY] value; an entity's names and identifiers are those of the
    records of its group, as sets; and there is one entity for each
    distinct [COMPANY] value. *)
Theorem generate_group_by_company_spec df :
  ⋃ (names <$> generate_group_by_company df)
    = list_to_set ((λ r : MRow, NAME_COLUMN r) <$> df)
  ∧ (∀ r, r ∈ df →
       ∃ e, e ∈ generate_group_by_company df ∧ group_key e = COMPANY r
         ∧ ∀ e', e' ∈ generate_group_by_company df →
             group_key e' = COMPANY r → e' = e)
  ∧ (∀ e, e ∈ generate_group_by_company df →
       (∀ x, x ∈ names e ↔
          ∃ r, r ∈ df ∧ COMPANY r = group_key e ∧ NAME_COLUMN r = x)
       ∧ (∀ x, x ∈ ibans e ↔
          ∃ r, r ∈ df ∧ COMPANY r = group_key e ∧ IBAN_COLUMN r = x))
  ∧ NoDup (group_key <$> generate_group_by_company df)
  ∧ (∀ k, k ∈ group_key <$> generate_group_by_company df ↔ k ∈ COMPANY <$> df).
Proof.
  split_and!.
  - apply set_eq. intros x.
    rewrite elem_of_union_list, elem_of_list_to_set, list_elem_of_fmap. split.
    + intros (X & (e & -> & [-> _]%elem_of_groups)%list_elem_of_fmap & Hx).
      apply elem_of_group_names in Hx as (r & ? & _ & ?). by exists r.
    + intros (r & -> & Hr).
      destruct (group_of_record df r Hr) as (e & He & _ & Hn & _).
      exists (names e). split; [|done]. apply list_elem_of_fmap. by exists e.
  - intros r Hr. destruct (group_of_record df r Hr) as (e & ? & ? & _ & _ & ?).
    by exists e.
  - intros e [-> _]%elem_of_groups. simpl group_key.
    split; intros x; [apply elem_of_group_names|apply elem_of_group_ibans].
  - apply group_keys_NoDup.
  - apply elem_of_group_keys.
Qed.

End GroupBy.

Section ArgMax.

Lemma argmax_from_spec (pre l : list Z) best best_i :
  pre !! best_i = Some best →
  (∀ j x, pre !! j = Some x → (x ≤ best)%Z) →
  (∀ j x, j < best_i → pre !! j = Some x → (x < best)%Z) →
  ∃ m, (pre ++ l) !! argmax_from best best_i (length pre) l = Some m
    ∧ (∀ j x, (pre ++ l) !! j = Some x → (x ≤ m)%Z)
    ∧ (∀ j x, j < argmax_from best best_i (length pre) l →
         (pre ++ l) !! j = Some x → (x < m)%Z).
Proof.
  revert pre best best_i. induction l as [|x l IH]; intros pre best best_i Hb Hmax Hfirst.
  - simpl. rewrite app_nil_r. eauto.
  - simpl. replace (pre ++ x :: l) with ((pre ++ [x]) ++ l) by by rewrite <-app_assoc.
    replace (S (length pre)) with (length (pre ++ [x])) by (rewrite length_app; simpl; lia).
    destruct (best <? x)%Z eqn:Hlt.
    + apply Z.ltb_lt in Hlt. apply IH.
      * by rewrite lookup_app_r, Nat.sub_diag.
      * intros j y Hj. apply lookup_app_Some in Hj as [Hj|[_ Hj]].
        -- apply Hmax in Hj. lia.
        -- apply list_lookup_singleton_Some in Hj as [_ <-]. lia.
      * intros j y Hlen Hj. apply lookup_app_Some in Hj as [Hj|[Hge _]]; [|lia].
        apply Hmax in Hj. lia.
    + apply Z.ltb_ge in Hlt. apply IH.
      * apply lookup_app_l_Some. done.
      * intros j y Hj. apply lookup_app_Some in Hj as [Hj|[_ Hj]].
        -- by apply Hmax in Hj.
        -- by apply list_lookup_singleton_Some in Hj as [_ <-].
      * intros j y Hlen Hj. apply lookup_app_Some in Hj as [Hj|[Hge _]].
        -- by apply (Hfirst j).
        -- apply lookup_lt_Some in Hb. lia.
Qed.

Lemma argmax_spec (l : list Z) :
  l ≠ [] →
  ∃ i m, argmax l = Ok i ∧ l !! i = Some m
    ∧ (∀ j x, l !! j = Some x → (x ≤ m)%Z)
    ∧ (∀ j x, j < i → l !! j = Some x → (x < m)%Z).
Proof.
  destruct l as [|x l]; [done|]. intros _. simpl.
  destruct (argmax_from_spec [x] l x 0) as (m & ? & ? & ?).
  - done.
  - by intros [|j] y [= ->].
  - intros j y Hj. lia.
  - exists (argmax_from x 0 1 l), m. done.
Qed.

End ArgMax.

(** ** Matching *)

Section ResultMonad.

Lemma result_mapM_cons {A B} (f : A → result B) x l :
  mapM f (x :: l) = (y ← f x; k ← mapM f l; mret (y :: k)).
Proof. done. Qed.

Lemma result_mapM_ext {A B} (f g : A → result B) l :
  (∀ x, f x = g x) → mapM f l = mapM g l.
Proof.
  intros Hfg. induction l as [|x l IH]; [done|].
  by rewrite !result_mapM_cons, Hfg, IH.
Qed.

Lemma result_mapM_fmap {A B C} (f : B → result C) (g : A → B) l :
  mapM f (g <$> l) = mapM (f ∘ g) l.
Proof.
  induction l as [|x l IH]; [done|].
  by rewrite fmap_cons, !result_mapM_cons, IH.
Qed.

Lemma result_fmap_mapM {A B C} (f : A → result B) (h : B → C) l :
  fmap h <$> mapM f l = mapM (λ x, h <$> f x) l.
Proof.
  induction l as [|x l IH]; [done|].
  rewrite !result_mapM_cons, <-IH.
  destruct (f x) as [y|e]; [|done]. simpl. by destruct (mapM f l).
Qed.

End ResultMonad.

Section Matching.

Variable basename : string → string.
Variable token_set_ratio : string → string → Z.

Implicit Types (u : list string) (q best : string).

Lemma best_match_at_unique q u i i' best best' :
  best_match_at token_set_ratio q u i best →
  best_match_at token_set_ratio q u i' best' →
  i = i' ∧ best = best'.
Proof.
  intros (Hi & Hmax & Hfirst) (Hi' & Hmax' & Hfirst').
  assert (i = i') as <-.
  { destruct (Nat.lt_total i i') as [Hlt|[?|Hlt]]; [|done|].
    - pose proof (Hfirst' _ _ Hlt Hi). pose proof (Hmax _ _ Hi'). lia.
    - pose proof (Hfirst _ _ Hlt Hi'). pose proof (Hmax' _ _ Hi). lia. }
  split; [done|congruence].
Qed.

Lemma get_company_match_best q u :
  u ≠ [] →
  ∃ i best, best_match_at token_set_ratio q u i best
    ∧ get_company_match token_set_ratio q u = Ok (display_name best).
Proof.
  intros Hu. unfold get_company_match.
  destruct (argmax_spec ((λ m, token_set_ratio m q) <$> u))
    as (i & x & -> & Hi & Hmax & Hfirst).
  { by destruct u. }
  rewrite list_lookup_fmap in Hi.
  destruct (u !! i) as [best|] eqn:Hbest; [|done]. injection Hi as <-.
  exists i, best. split; [|simpl; by rewrite Hbest].
  split_and!; [done| |].
  - intros j m Hj. apply (Hmax j). by rewrite list_lookup_fmap, Hj.
  - intros j m Hlt Hj. apply (Hfirst j); [done|]. by rewrite list_lookup_fmap, Hj.
Qed.

Lemma display_name_single_token best :
  length (split best) ≤ 1 → display_name best = "".
Proof.
  unfold display_name, drop_last. intros H.
  by replace (length (split best) - 1) with 0 by lia.
Qed.

Lemma split_leading_space s : split ("" +:+ " " +:+ s) = split s.
Proof. done. Qed.


(** C3 (as amended). On an empty universe [get_company_match] does not
    return: [argmax] of the empty score array raises [ValueError]. *)
Theorem get_company_match_empty_universe q :
  get_company_match token_set_ratio q [] = Raise ValueError.
Proof. done. Qed.

(** C10 (confirmed). When the best-matching member of the universe has at
    most one token, [get_company_match] returns the empty string; that is
    the case of a candidate key made of an empty name and a one-token
    identifier; and a record resolved to the empty string is found in the
    group of the empty string. *)
Theorem get_company_match_single_token q u i best :
  best_match_at token_set_ratio q u i best →
  length (split best) ≤ 1 →
  get_company_match token_set_ratio q u = Ok ""
  ∧ (∀ iban, split ("" +:+ " " +:+ iban) = split iban)
  ∧ (∀ (df : list MRow) (r : MRow), r ∈ df → COMPANY r = "" →
       ∃ e, e ∈ generate_group_by_company df ∧ group_key e = ""
         ∧ NAME_COLUMN r ∈ names e ∧ IBAN_COLUMN r ∈ ibans e).
Proof.
  intros Hbest Htok. split_and!.
  - destruct (get_company_match_best q u) as (i' & best' & Hbest' & ->).
    { intros ->. by destruct Hbest as [? _]. }
    destruct (best_match_at_unique _ _ _ _ _ _ Hbest Hbest') as [_ <-].
    by rewrite display_name_single_token.
  - apply split_leading_space.
  - intros df r Hr Hc.
    destruct (group_of_record df r Hr) as (e & ? & ? & ? & ? & _).
    exists e. split_and!; [done|congruence|done..].
Qed.

Lemma remove_terms_keyed (df : list NRow) :
  NOT_BUSINESS_TERMS_NAME_NORM_IBAN <$> keyed_frame basename df
  = canonical_candidate_key basename <$> df.
Proof.
  unfold keyed_frame, generate_name_iban_normalized, remove_terms_name_company.
  by rewrite <-!list_fmap_compose.
Qed.

Lemma generate_company_match_column (df : list NRow) u :
  fmap COMPANY <$> generate_company_match token_set_ratio (keyed_frame basename df) u
  = mapM (λ r, get_company_match token_set_ratio (full_key r) u) df.
Proof.
  unfold generate_company_match, keyed_frame, generate_name_iban_normalized,
    remove_terms_name_company.
  rewrite <-list_fmap_compose, result_mapM_fmap, result_fmap_mapM.
  apply result_mapM_ext. intros r. unfold compose. simpl.
  by destruct (get_company_match _ _ _).
Qed.

Lemma elem_of_canonical_universe (df : list NRow) k :
  k ∈ canonical_universe basename df ↔
    ∃ r, r ∈ df ∧ k = canonical_candidate_key basename r.
Proof.
  unfold canonical_universe, get_uniques_name_plus_iban.
  rewrite remove_terms_keyed, elem_of_unique, list_elem_of_fmap.
  split; intros (r & ? & ?); by exists r.
Qed.

(** C1 (as amended). The universe [process_entity_resolution] passes to
    the matcher is made of the distinct [canonical_candidate_key] values of
    the records (the name without business terms, a space and the truncated
    identifier), in order of first appearance; and the string scored against
    it for a record is the record's [full_key] (the normalized name, a space
    and the raw identifier). *)
Theorem canonical_universe_and_query (df : list NRow) :
  canonical_universe basename df = unique (canonical_candidate_key basename <$> df)
  ∧ NoDup (canonical_universe basename df)
  ∧ (∀ k, k ∈ canonical_universe basename df ↔
       ∃ r, r ∈ df ∧ k = canonical_candidate_key basename r)
  ∧ (∀ u, fmap COMPANY <$>
            generate_company_match token_set_ratio (keyed_frame basename df) u
          = mapM (λ r, get_company_match token_set_ratio (full_key r) u) df)
  ∧ process_entity_resolution basename token_set_ratio df
    = (matched ← generate_company_match token_set_ratio
                    (keyed_frame basename df) (canonical_universe basename df);
       mret (generate_group_by_company matched)).
Proof.
  assert (canonical_universe basename df
          = unique (canonical_candidate_key basename <$> df)) as Hu.
  { unfold canonical_universe, get_uniques_name_plus_iban.
    by rewrite remove_terms_keyed. }
  split_and!; [done| | |apply generate_company_match_column|done].
  - rewrite Hu. apply unique_NoDup.
  - apply elem_of_canonical_universe.
Qed.

Lemma generate_company_match_total (keyed : list KRow) u :
  u ≠ [] → ∃ matched, generate_company_match token_set_ratio keyed u = Ok matched.
Proof.
  intros Hu. unfold generate_company_match.
  induction keyed as [|r keyed [matched IH]]; [by eexists|].
  cbn [mapM]. cbn [mapM] in IH.
  destruct (get_company_match_best (NORM_NAME_IBAN r) u Hu) as (? & ? & _ & ->).
  simpl. simpl in IH. rewrite IH. by eexists.
Qed.

(** The pipeline never calls the matcher with an empty universe: entity
    resolution returns on every deduplicated frame. *)
Lemma process_entity_resolution_total (df : list NRow) :
  ∃ out, process_entity_resolution basename token_set_ratio df = Ok out.
Proof.
  unfold process_entity_resolution.
  destruct df as [|r df]; [by eexists|].
  edestruct generate_company_match_total as [matched ->]; [|by eexists].
  intros Hnil.
  assert (canonical_candidate_key basename r
          ∈ canonical_universe basename (r :: df)) as Hin.
  { apply elem_of_canonical_universe. exists r. split; [by left|done]. }
  unfold canonical_universe, keyed_frame in Hin. rewrite Hnil in Hin.
  by apply elem_of_nil in Hin.
Qed.

End Matching.

(** ** The scenario of the specification, witnesses and counterexamples *)

Section Scenario.

Lemma process_duplicate_removal_spec_witness :
  ∃ out, process_duplicate_removal "XX" acme_files "input.csv" = Ok out
    ∧ (∀ r : NRow, r ∈ out →
         as_raw r ∈ acme_rows ∧ IBAN_COLUMN r ≠ "XX"
         ∧ NORM_NAME r = normalize_text (NAME_COLUMN r))
    ∧ NoDup ((λ r : NRow, (NORM_NAME r, IBAN_COLUMN r)) <$> out)
    ∧ (λ r : NRow, as_raw r) <$> out `sublist_of` acme_rows
    ∧ (∀ r : NRow, r ∈ out →
         ∃ pre post, acme_rows = pre ++ as_raw r :: post
           ∧ ∀ raw n i, raw ∈ pre →
               NAME_CELL raw = Some n → IBAN_CELL raw = Some i →
               (normalize_text n, i) ≠ (NORM_NAME r, IBAN_COLUMN r)).
Proof.
  apply (process_duplicate_removal_spec "XX" acme_files "input.csv" acme_rows).
  reflexivity.
Defined.

Lemma acme_duplicate_removal :
  process_duplicate_removal "XX" acme_files "input.csv" = Ok acme_deduplicated.
Proof. by vm_compute. Qed.

Lemma keyed_frame_ext basename basename' (df : list NRow) :
  Forall (λ r, basename (NORM_NAME r) = basename' (NORM_NAME r)) df →
  keyed_frame basename df = keyed_frame basename' df.
Proof.
  unfold keyed_frame, remove_terms_name_company, remove_business_terms.
  induction 1 as [|r df Hr _ IH]; [done|].
  rewrite !fmap_cons, Hr. unfold generate_name_iban_normalized in *.
  rewrite !fmap_cons. by f_equal.
Qed.

(** C4 (confirmed). On the three Acme rows with [INVALID] "XX", with a
    [basename] that takes "acme corp", "acme gmbh" and "acme" to "acme",
    duplicate removal keeps the three rows, entity resolution gives each
    of them the company "Acme", and the grouped frame is the one entity
    "Acme" with the three identifiers. *)
Theorem acme_scenario basename token_set_ratio :
  basename "acme corp" = "acme" → basename "acme gmbh" = "acme" →
  basename "acme" = "acme" →
  ∃ deduplicated matched,
    process_duplicate_removal "XX" acme_files "input.csv" = Ok deduplicated
    ∧ generate_company_match token_set_ratio
        (keyed_frame basename deduplicated)
        (canonical_universe basename deduplicated) = Ok matched
    ∧ (λ r : MRow, (NAME_COLUMN r, IBAN_COLUMN r, COMPANY r)) <$> matched
      = [ ("Acme Corp", "DE001", "Acme"); ("ACME GMBH", "DE002", "Acme");
          ("acme", "DE003", "Acme") ]
    ∧ process_entity_resolution basename token_set_ratio deduplicated
      = Ok [ acme_entity ].
Proof.
  intros H1 H2 H3. exists acme_deduplicated.
  assert (keyed_frame basename acme_deduplicated
          = keyed_frame (λ _, "acme") acme_deduplicated) as Hk.
  { apply keyed_frame_ext. by repeat constructor. }
  unfold process_entity_resolution, canonical_universe.
  fold (keyed_frame basename acme_deduplicated). rewrite Hk.
  eexists. split_and!.
  - apply acme_duplicate_removal.
  - by vm_compute.
  - by vm_compute.
  - vm_compute. reflexivity.
Qed.

Lemma acme_scenario_witness :
  ∃ deduplicated matched,
    process_duplicate_removal "XX" acme_files "input.csv" = Ok deduplicated
    ∧ generate_company_match exact_match_ratio
        (keyed_frame lexicon_basename deduplicated)
        (canonical_universe lexicon_basename deduplicated) = Ok matched
    ∧ (λ r : MRow, (NAME_COLUMN r, IBAN_COLUMN r, COMPANY r)) <$> matched
      = [ ("Acme Corp", "DE001", "Acme"); ("ACME GMBH", "DE002", "Acme");
          ("acme", "DE003", "Acme") ]
    ∧ process_entity_resolution lexicon_basename exact_match_ratio deduplicated
      = Ok [ acme_entity ].
Proof.
  apply (acme_scenario lexicon_basename exact_match_ratio); reflexivity.
Defined.



(** C3 (as stated) fails: on an empty universe the outcome is numpy's
    [ValueError], not a failure the code signals itself. *)
Lemma get_company_match_empty_not_signalled :
  get_company_match exact_match_ratio "acme DE003" [] = Raise ValueError
  ∧ ¬ precondition_signal (get_company_match exact_match_ratio "acme DE003" []).
Proof. split; [done|]. by intros [msg Hmsg]. Qed.

Lemma get_company_match_single_token_witness :
  best_match_at exact_match_ratio " DE003" [ " DE0" ] 0 " DE0"
  ∧ length (split " DE0") ≤ 1
  ∧ get_company_match exact_match_ratio " DE003" [ " DE0" ] = Ok "".
Proof.
  assert (best_match_at exact_match_ratio " DE003" [ " DE0" ] 0 " DE0") as Hbest.
  { split_and!; [done| |intros j m Hj; lia].
    intros [|j] m [= <-]. done. }
  assert (length (split " DE0") ≤ 1) as Htok by (simpl; lia).
  split_and!; [done..|].
  apply (get_company_match_single_token exact_match_ratio " DE003" [ " DE0" ]
           0 " DE0" Hbest Htok).
Defined.

(** C1 (as stated) fails: for the record ("acme", "DE003") the universe is
    made of the candidate key "acme DE0", which is no record's full key;
    and on the records alpha and beta, with a scorer that tells equal
    strings apart, scoring the full keys resolves both to "Alpha" where
    scoring the candidate keys would resolve the second to "Beta". *)
Lemma universe_is_not_full_keys :
  canonical_universe lexicon_basename acme_alone = [ "acme DE0" ]
  ∧ full_key <$> acme_alone = [ "acme DE003" ]
  ∧ ¬ (∀ k, k ∈ canonical_universe lexicon_basename acme_alone ↔
            k ∈ full_key <$> acme_alone)
  ∧ fmap (M:=list) COMPANY <$>
      generate_company_match exact_match_ratio
        (keyed_frame lexicon_basename alpha_beta)
        (canonical_universe lexicon_basename alpha_beta)
    = Ok [ "Alpha"; "Alpha" ]
  ∧ mapM (λ r : NRow, get_company_match exact_match_ratio
                 (canonical_candidate_key lexicon_basename r)
                 (canonical_universe lexicon_basename alpha_beta))
      alpha_beta
    = Ok [ "Alpha"; "Beta" ].
Proof.
  split_and!; [done..| |done|done].
  intros H. specialize (H "acme DE0") as [H _].
  assert ("acme DE0" ∈ [ "acme DE003" ]) as Hin by (apply H; by left).
  apply list_elem_of_singleton in Hin. discriminate Hin.
Qed.

End Scenario.

(** * Further properties of the pipeline *)

Section MoreStrings.

Implicit Types (l : list ascii) (c : ascii) (s : string).

Lemma isword_lower_char c : isword (lower_char c) = isword c.
Proof. by destruct c as [[] [] [] [] [] [] [] []]. Qed.

Lemma isspace_lower_char c : isspace (lower_char c) = isspace c.
Proof. by destruct c as [[] [] [] [] [] [] [] []]. Qed.

Lemma isword_isspace_disjoint c : isword c && isspace c = false.
Proof. by destruct c as [[] [] [] [] [] [] [] []]. Qed.

Lemma isword_not_isspace c : isword c → ¬ isspace c.
Proof.
  intros Hw Hs. pose proof (isword_isspace_disjoint c) as H.
  apply Is_true_true in Hw, Hs. by rewrite Hw, Hs in H.
Qed.

Lemma chars_app s1 s2 : chars (s1 +:+ s2) = chars s1 ++ chars s2.
Proof. induction s1 as [|c s1 IH]; simpl; [done|]. by rewrite IH. Qed.

Lemma keep_word_space_lower_keep l :
  keep_word_space (lower_char <$> keep_word_space l)
  = keep_word_space (lower_char <$> l).
Proof.
  unfold keep_word_space. induction l as [|c l IH]; [done|].
  rewrite filter_cons. case_decide as Hc.
  - by rewrite !fmap_cons, !filter_cons, IH.
  - rewrite fmap_cons, filter_cons_False; [done|].
    by rewrite isword_lower_char, isspace_lower_char.
Qed.

(** X1. [normalize_text] does not see case: lowering the text first gives
    the same normalized text, so two texts with the same lower-cased form
    have the same normalized text; and removing from the lower-cased text
    the characters that are neither word characters nor whitespace before
    normalizing it changes nothing. *)
Theorem normalize_text_case_insensitive text :
  normalize_text (lower text) = normalize_text text
  ∧ (∀ text', lower text = lower text' →
       normalize_text text = normalize_text text')
  ∧ normalize_text (sub_nonword_nonspace (lower text)) = normalize_text text.
Proof.
  assert (normalize_text (lower text) = normalize_text text) as Hlow.
  { apply chars_inj. rewrite !normalize_text_chars. unfold normalize_chars, lower.
    rewrite chars_lift, <-list_fmap_compose.
    do 3 f_equal. apply list_fmap_ext. intros _ c _. apply lower_char_idemp. }
  split_and!; [done| |].
  - intros text' H. unfold normalize_text. by rewrite H.
  - etrans; [|exact Hlow]. apply chars_inj. rewrite !normalize_text_chars.
    unfold normalize_chars, sub_nonword_nonspace. rewrite chars_lift.
    by rewrite keep_word_space_lower_keep.
Qed.

Lemma lstrip_chars_nil l : lstrip_chars l = [] ↔ Forall (λ c, isspace c) l.
Proof.
  induction l as [|c l IH]; simpl; [done|].
  destruct (isspace c) eqn:Hc.
  - rewrite IH. split; [intros H; constructor; [by rewrite Hc|done]|].
    by intros [_ ?]%Forall_cons_1.
  - split; [done|]. intros [H _]%Forall_cons_1. by rewrite Hc in H.
Qed.

Lemma rstrip_chars_nil l : rstrip_chars l = [] ↔ Forall (λ c, isspace c) l.
Proof.
  induction l as [|c l IH]; simpl; [done|].
  destruct (rstrip_chars l) as [|x r] eqn:Hr.
  - destruct (isspace c) eqn:Hc.
    + split; [intros _|done]. constructor; [by rewrite Hc|by apply IH].
    + split; [done|]. intros [H _]%Forall_cons_1. by rewrite Hc in H.
  - split; [done|]. intros [_ H]%Forall_cons_1. by apply IH in H.
Qed.

Lemma strip_chars_nil l : strip_chars l = [] ↔ Forall (λ c, isspace c) l.
Proof.
  unfold strip_chars. rewrite rstrip_chars_nil. split.
  - intros H. induction l as [|c l IH]; [done|]. simpl in H.
    destruct (isspace c) eqn:Hc.
    + constructor; [by rewrite Hc|by apply IH].
    + apply Forall_cons_1 in H as [H _]. by rewrite Hc in H.
  - rewrite !Forall_forall. intros H c Hc. apply H.
    eapply elem_of_sublist; [done|apply lstrip_chars_sublist].
Qed.

Lemma collapse_chars_nil l : collapse_chars l = [] ↔ l = [].
Proof.
  split; [|by intros ->]. intros H.
  pose proof (collapse_chars_head l) as Hh. rewrite H in Hh.
  by destruct l.
Qed.

(** X2. [normalize_text] returns the empty string exactly on the texts
    without a word character: a name made of punctuation and whitespace
    only has an empty normalized name. *)
Theorem normalize_text_empty text :
  normalize_text text = "" ↔ Forall (λ c, ¬ isword c) (chars text).
Proof.
  split.
  - intros H. assert (normalize_chars (chars text) = []) as Hn
      by by rewrite <-normalize_text_chars, H.
    unfold normalize_chars in Hn.
    apply collapse_chars_nil, strip_chars_nil in Hn.
    rewrite Forall_forall in Hn. apply Forall_forall. intros c Hc Hw.
    apply (isword_not_isspace (lower_char c)).
    + by rewrite isword_lower_char.
    + apply Hn. apply list_elem_of_filter. split.
      * rewrite isword_lower_char. apply orb_True. by left.
      * apply list_elem_of_fmap. by exists c.
  - intros H. apply chars_inj. rewrite normalize_text_chars.
    unfold normalize_chars. apply collapse_chars_nil, strip_chars_nil.
    apply Forall_forall. intros c' Hc'.
    apply list_elem_of_filter in Hc' as [Hk Hc'].
    apply list_elem_of_fmap in Hc' as (c & -> & Hc).
    rewrite Forall_forall in H. specialize (H c Hc).
    apply orb_True in Hk as [Hk|Hk]; [|done].
    by rewrite isword_lower_char in Hk.
Qed.

End MoreStrings.

Section Words.

Implicit Types (l cur : list ascii) (c : ascii) (s : string).

Lemma split_chars_cons cur c l :
  split_chars cur (c :: l)
  = if isspace c then flush cur ++ split_chars [] l else split_chars (c :: cur) l.
Proof. done. Qed.

Lemma split_chars_whitespace cur l :
  Forall (λ c, isspace c) l → split_chars cur l = flush cur.
Proof.
  intros H. revert cur. induction H as [|x l Hx _ IH]; intros cur; [done|].
  simpl. rewrite (Is_true_true_1 _ Hx), IH. apply app_nil_r.
Qed.

Lemma split_chars_lstrip l : split_chars [] (lstrip_chars l) = split_chars [] l.
Proof.
  induction l as [|x l IH]; [done|]. simpl.
  destruct (isspace x) eqn:Hx; [done|]. simpl. by rewrite Hx.
Qed.

Lemma split_chars_rstrip cur l :
  split_chars cur (rstrip_chars l) = split_chars cur l.
Proof.
  revert cur. induction l as [|x l IH]; intros cur; [done|].
  cbn [rstrip_chars]. destruct (rstrip_chars l) as [|y r] eqn:Hr.
  - apply rstrip_chars_nil in Hr. simpl.
    destruct (isspace x) eqn:Hx; simpl; rewrite ?Hx.
    + by rewrite split_chars_whitespace, app_nil_r.
    + by rewrite split_chars_whitespace.
  - rewrite (split_chars_cons cur x (y :: r)), (split_chars_cons cur x l).
    destruct (isspace x); by rewrite IH.
Qed.

Lemma split_chars_collapse cur l :
  split_chars cur (collapse_chars l) = split_chars cur l.
Proof.
  revert cur. induction l as [|x [|y l] IH]; intros cur;
    [done|by rewrite collapse_chars_singleton|].
  rewrite collapse_chars_cons_cons. case_decide as H.
  - destruct H as [-> ->]. rewrite IH. done.
  - rewrite (split_chars_cons cur x (collapse_chars (y :: l))), !IH.
    by rewrite (split_chars_cons cur x (y :: l)).
Qed.

Lemma split_chars_strip l : split_chars [] (strip_chars l) = split_chars [] l.
Proof. unfold strip_chars. by rewrite split_chars_rstrip, split_chars_lstrip. Qed.

(** X3. [normalize_text] never adds or moves a character and keeps the
    words: its characters are a subsequence of the lower-cased characters
    of the text, so it is no longer than the text, and its words are the
    words of the lower-cased text without its punctuation. *)
Theorem normalize_text_words text :
  chars (normalize_text text) `sublist_of` (lower_char <$> chars text)
  ∧ String.length (normalize_text text) ≤ String.length text
  ∧ split (normalize_text text) = split (sub_nonword_nonspace (lower text)).
Proof.
  assert (chars (normalize_text text) `sublist_of` (lower_char <$> chars text))
    as Hsub.
  { rewrite normalize_text_chars. etrans; [apply normalize_chars_sublist|].
    apply sublist_filter. }
  split_and!; [done| |].
  - apply sublist_length in Hsub.
    by rewrite length_fmap, !length_chars in Hsub.
  - unfold split. rewrite normalize_text_chars. unfold normalize_chars.
    rewrite split_chars_collapse, split_chars_strip.
    unfold sub_nonword_nonspace, lower. by rewrite !chars_lift.
Qed.

Lemma remove_business_terms_words (basename : string → string) text :
  split (remove_business_terms basename text) = split (basename text).
Proof.
  unfold split, remove_business_terms, sub_spaces_space, strip.
  by rewrite !chars_lift, split_chars_collapse, split_chars_strip.
Qed.

End Words.

Section Truncation.

Implicit Types (l : list ascii) (c : ascii) (s : string).

Lemma drop_last_app {A} (k1 k2 : list A) :
  drop_last (length k2) (k1 ++ k2) = k1.
Proof.
  unfold drop_last. rewrite length_app.
  replace (length k1 + length k2 - length k2) with (length k1) by lia.
  apply take_app_length.
Qed.

Lemma remove_space_chars_clean l : Forall (λ c, c ≠ SPACE) (remove_space_chars l).
Proof.
  apply Forall_forall. intros c Hc.
  by apply list_elem_of_filter in Hc as [? _].
Qed.

Lemma remove_space_chars_idemp l :
  remove_space_chars (remove_space_chars l) = remove_space_chars l.
Proof. apply filter_fixed, remove_space_chars_clean. Qed.

(** X4. [remove_business_terms] post-processes whatever [basename] returns:
    the result is made of characters of [basename]'s result in their order,
    has no whitespace at either end and no two U+0020 next to each other;
    its words are the words of [basename]'s result; and when [basename]
    gives back a normalized text unchanged, so does
    [remove_business_terms]. *)
Theorem remove_business_terms_shape (basename : string → string) text :
  chars (remove_business_terms basename text) `sublist_of` chars (basename text)
  ∧ split (remove_business_terms basename text) = split (basename text)
  ∧ no_outer_whitespace (chars (remove_business_terms basename text))
  ∧ no_adjacent (λ c, c = SPACE) (chars (remove_business_terms basename text))
  ∧ (basename (normalize_text text) = normalize_text text →
     remove_business_terms basename (normalize_text text) = normalize_text text).
Proof.
  split; [|split; [apply remove_business_terms_words|]];
    unfold remove_business_terms, sub_spaces_space, strip;
    rewrite !chars_lift; [|split_and!].
  - etrans; [apply collapse_chars_sublist|apply strip_chars_sublist].
  - destruct (strip_chars_no_outer (chars (basename text))) as [Hh Hl].
    split; intros c; [rewrite collapse_chars_head|rewrite collapse_chars_last]; auto.
  - apply single_spaced_no_adjacent, collapse_chars_single_spaced.
  - intros ->. apply chars_inj. rewrite !chars_lift.
    destruct (normalize_chars_shape (chars text)) as (_ & Hout & Hsp).
    rewrite normalize_text_chars.
    rewrite strip_chars_fixed by done. by apply collapse_chars_fixed.
Qed.

(** X5. Two identifiers that differ only in their last two characters
    have the same truncated identifier, which is the common part with its
    U+0020 removed and the whitespace at its ends stripped. *)
Theorem remove_last_digits_iban_ignores_last_two prefix a b :
  String.length a = 2 → String.length b = 2 →
  Forall (λ c, c ≠ SPACE) (chars a) → Forall (λ c, c ≠ SPACE) (chars b) →
  remove_last_digits_iban (prefix +:+ a) = remove_last_digits_iban (prefix +:+ b)
  ∧ remove_last_digits_iban (prefix +:+ a) = strip (sub_spaces_empty prefix).
Proof.
  intros Ha Hb Hsa Hsb.
  assert (∀ x, String.length x = 2 → Forall (λ c, c ≠ SPACE) (chars x) →
            remove_last_digits_iban (prefix +:+ x)
            = strip (sub_spaces_empty prefix)) as H.
  { intros x Hx Hsx. apply chars_inj.
    rewrite remove_last_digits_iban_chars, chars_app.
    unfold strip, sub_spaces_empty. rewrite !chars_lift.
    unfold remove_space_chars. rewrite filter_app, (filter_fixed _ (chars x)) by done.
    rewrite <-length_chars in Hx. rewrite <-Hx.
    by rewrite drop_last_app. }
  split; [|by apply H]. by rewrite !H.
Qed.

Lemma remove_last_digits_iban_ignores_last_two_witness :
  remove_last_digits_iban ("DE12 3456 78" +:+ "90")
    = remove_last_digits_iban ("DE12 3456 78" +:+ "17")
  ∧ remove_last_digits_iban ("DE12 3456 78" +:+ "90")
    = strip (sub_spaces_empty "DE12 3456 78").
Proof.
  apply (remove_last_digits_iban_ignores_last_two "DE12 3456 78" "90" "17");
    [done|done|by repeat constructor|by repeat constructor].
Defined.

Lemma remove_last_digits_iban_short iban :
  String.length (sub_spaces_empty iban) ≤ 2 → remove_last_digits_iban iban = "".
Proof.
  rewrite <-length_chars. unfold sub_spaces_empty. rewrite chars_lift.
  intros Hlen. apply chars_inj. rewrite remove_last_digits_iban_chars.
  unfold drop_last.
  by replace (length (remove_space_chars (chars iban)) - 2) with 0 by lia.
Qed.

(** X6. The truncated identifier does not depend on the U+0020 of the
    identifier and has none itself; for an identifier of two characters or
    more it is at least two characters shorter than the identifier; and an
    identifier with at most two characters other than U+0020 truncates to
    the empty string. *)
Theorem remove_last_digits_iban_spaces iban :
  remove_last_digits_iban (sub_spaces_empty iban) = remove_last_digits_iban iban
  ∧ Forall (λ c, c ≠ SPACE) (chars (remove_last_digits_iban iban))
  ∧ (2 ≤ String.length iban →
     String.length (remove_last_digits_iban iban) + 2 ≤ String.length iban)
  ∧ (String.length (sub_spaces_empty iban) ≤ 2 →
     remove_last_digits_iban iban = "").
Proof.
  assert (chars (remove_last_digits_iban iban)
          `sublist_of` drop_last 2 (remove_space_chars (chars iban))) as Hsub.
  { rewrite remove_last_digits_iban_chars. apply strip_chars_sublist. }
  split_and!.
  - apply chars_inj. rewrite !remove_last_digits_iban_chars.
    unfold sub_spaces_empty. by rewrite chars_lift, remove_space_chars_idemp.
  - rewrite Forall_forall. intros c Hc.
    eapply elem_of_sublist in Hc; [|exact Hsub].
    unfold drop_last in Hc. apply elem_of_take in Hc as (i & Hc & _).
    apply list_elem_of_lookup_2 in Hc.
    by apply list_elem_of_filter in Hc as [? _].
  - rewrite <-!length_chars. intros Hlen. apply sublist_length in Hsub.
    unfold drop_last in Hsub. rewrite length_take in Hsub.
    pose proof (length_filter (λ c, c ≠ SPACE) (chars iban)) as Hf.
    unfold remove_space_chars in Hsub. lia.
  - apply remove_last_digits_iban_short.
Qed.

End Truncation.

Section Splitting.

Implicit Types (l cur : list ascii) (c : ascii) (s : string).






End Splitting.

Section CompositeKeys.

Variable token_set_ratio : string → string → Z.



End CompositeKeys.

Section MoreDuplicates.

Lemma drop_duplicates_from_fixed {A K} `{EqDecision K} (key : A → K) seen (df : list A) :
  NoDup (key <$> df) → (∀ r, r ∈ df → key r ∉ seen) →
  drop_duplicates_from key seen df = df.
Proof.
  revert seen. induction df as [|r df IH]; intros seen Hnd Hseen; [done|].
  rewrite fmap_cons in Hnd. apply NoDup_cons in Hnd as [Hr Hnd]. simpl.
  rewrite decide_False by (apply Hseen; by left).
  f_equal. apply IH; [done|]. intros r' Hr'.
  apply not_elem_of_cons. split.
  - intros Heq. apply Hr. rewrite <-Heq. apply list_elem_of_fmap. by exists r'.
  - apply Hseen. by right.
Qed.

Variable INVALID : string.

Lemma process_duplicate_removal_omap files file_path data :
  files !! file_path = Some data →
  process_duplicate_removal INVALID files file_path
  = Ok (drop_duplicates (λ r : NRow, (NORM_NAME r, IBAN_COLUMN r))
          (omap (clean_row INVALID) data)).
Proof.
  intros Hfile. unfold process_duplicate_removal, read_data. rewrite Hfile.
  simpl. by rewrite anomaly_free_normalized.
Qed.

Lemma omap_clean_row_as_raw (l : list NRow) :
  (∀ r : NRow, r ∈ l → clean_row INVALID (as_raw r) = Some r) →
  omap (clean_row INVALID) ((λ r : NRow, as_raw r) <$> l) = l.
Proof.
  induction l as [|r l IH]; intros H; [done|].
  rewrite fmap_cons. cbn [omap list_omap]. rewrite (H r) by by left.
  f_equal. apply IH. intros r' Hr'. apply H. by right.
Qed.

(** X8. Duplicate removal is idempotent: run on the rows it returned, it
    returns them again. *)
Theorem process_duplicate_removal_idempotent files file_path data out files' file_path' :
  files !! file_path = Some data →
  process_duplicate_removal INVALID files file_path = Ok out →
  files' !! file_path' = Some ((λ r : NRow, as_raw r) <$> out) →
  process_duplicate_removal INVALID files' file_path' = Ok out.
Proof.
  intros Hfile Hout Hfile'.
  rewrite (process_duplicate_removal_omap _ _ _ Hfile) in Hout.
  injection Hout as <-.
  rewrite (process_duplicate_removal_omap _ _ _ Hfile'). f_equal.
  unfold drop_duplicates.
  set (key := λ r : NRow, (NORM_NAME r, IBAN_COLUMN r)).
  set (out := drop_duplicates_from key [] (omap (clean_row INVALID) data)).
  rewrite omap_clean_row_as_raw.
  - apply drop_duplicates_from_fixed; [apply drop_duplicates_from_NoDup|].
    intros r _. apply not_elem_of_nil.
  - intros r Hr. eapply elem_of_sublist in Hr; [|apply drop_duplicates_from_sublist].
    apply list_elem_of_omap in Hr as (raw & _ & Hc).
    apply clean_row_Some in Hc as (_ & ? & ?). by apply clean_row_Some.
Qed.

(** X9. Duplicate removal loses no pair: for every input row with both
    cells present and an identifier other than [INVALID], a returned record
    has the row's normalized name and identifier; and it returns no more
    records than the input has rows. *)
Theorem process_duplicate_removal_complete files file_path data :
  files !! file_path = Some data →
  ∃ out, process_duplicate_removal INVALID files file_path = Ok out
    ∧ length out ≤ length data
    ∧ ∀ raw n i, raw ∈ data →
        NAME_CELL raw = Some n → IBAN_CELL raw = Some i → i ≠ INVALID →
        ∃ r : NRow, r ∈ out ∧ NORM_NAME r = normalize_text n ∧ IBAN_COLUMN r = i.
Proof.
  intros Hfile. rewrite (process_duplicate_removal_omap _ _ _ Hfile).
  eexists; split; [done|]. unfold drop_duplicates.
  set (key := λ r : NRow, (NORM_NAME r, IBAN_COLUMN r)). split.
  - etrans; [apply sublist_length, drop_duplicates_from_sublist|].
    etrans; [|apply (sublist_length _ _ (omap_clean_row_sublist INVALID data))].
    by rewrite length_fmap.
  - intros raw n i Hraw Hn Hi Hne.
    set (r' := {| nrow_base := {| NAME_COLUMN := n; IBAN_COLUMN := i |};
                  NORM_NAME := normalize_text n |}).
    assert (r' ∈ omap (clean_row INVALID) data) as Hr'.
    { apply list_elem_of_omap. exists raw. split; [done|].
      apply clean_row_Some. split_and!; [|done..].
      destruct raw as [? ?]. simpl in *. by subst. }
    pose proof (drop_duplicates_from_complete key [] _ r' Hr') as Hk.
    apply list_elem_of_fmap in Hk as (r & Hk & Hr); [|apply not_elem_of_nil].
    exists r. split; [done|]. unfold key in Hk. by injection Hk as <- <-.
Qed.

End MoreDuplicates.

Section MoreGroupBy.

Implicit Types (df : list MRow) (e : Entity) (r : MRow).

Lemma StronglySorted_NoDup_strict {A} (R : relation A) (l : list A) :
  StronglySorted R l → NoDup l → StronglySorted (λ x y, R x y ∧ x ≠ y) l.
Proof.
  induction 1 as [|x l Hl IH Hx]; intros Hnd; [constructor|].
  apply NoDup_cons in Hnd as [Hxl Hnd]. constructor; [by apply IH|].
  rewrite Forall_forall in *. intros y Hy. split; [by apply Hx|].
  by intros ->.
Qed.

(** X10. The grouped frame comes sorted by its key: the keys of the
    entities are in strictly ascending order of their code points. *)
Theorem generate_group_by_company_sorted df :
  StronglySorted (λ k1 k2, String.le k1 k2 ∧ k1 ≠ k2)
    (group_key <$> generate_group_by_company df).
Proof.
  apply StronglySorted_NoDup_strict; [|apply group_keys_NoDup].
  rewrite group_keys. apply StronglySorted_merge_sort; apply _.
Qed.

Lemma unique_Permutation {A} `{EqDecision A} (l k : list A) :
  l ≡ₚ k → unique l ≡ₚ unique k.
Proof.
  intros Hp. apply NoDup_Permutation; [apply unique_NoDup..|].
  intros x. by rewrite !elem_of_unique, Hp.
Qed.

Lemma group_of_Permutation df df' k :
  df ≡ₚ df' → group_of df k = group_of df' k.
Proof.
  intros Hp. unfold group_of. f_equal; apply list_to_set_perm_L;
    by apply fmap_Permutation, filter_Permutation.
Qed.

(** X11. The keys and the sets of the grouped frame do not depend on the
    order of the records: two frames with the same records, in whatever
    order, give the same keys in the same order, and an entity of one and
    an entity of the other with the same key have the same set of names and
    the same set of identifiers.  (The order of the values inside a cell is
    not part of the model.) *)
Theorem generate_group_by_company_order df df' :
  df ≡ₚ df' →
  group_key <$> generate_group_by_company df
    = group_key <$> generate_group_by_company df'
  ∧ ∀ e e', e ∈ generate_group_by_company df →
      e' ∈ generate_group_by_company df' →
      group_key e = group_key e' →
      names e = names e' ∧ ibans e = ibans e'.
Proof.
  intros Hp. split.
  - rewrite !group_keys. apply (StronglySorted_unique String.le).
    + apply StronglySorted_merge_sort; apply _.
    + apply StronglySorted_merge_sort; apply _.
    + rewrite !merge_sort_Permutation.
      by apply unique_Permutation, fmap_Permutation.
  - intros e e' [-> _]%elem_of_groups [-> _]%elem_of_groups Hk.
    simpl in Hk. rewrite Hk, (group_of_Permutation df df') by done. done.
Qed.

Lemma generate_group_by_company_order_witness :
  group_key <$> generate_group_by_company
                  [ resolved "a" "X100" "B"; resolved "c" "X200" "A" ]
    = group_key <$> generate_group_by_company
                      [ resolved "c" "X200" "A"; resolved "a" "X100" "B" ]
  ∧ ∀ e e',
      e ∈ generate_group_by_company
            [ resolved "a" "X100" "B"; resolved "c" "X200" "A" ] →
      e' ∈ generate_group_by_company
             [ resolved "c" "X200" "A"; resolved "a" "X100" "B" ] →
      group_key e = group_key e' →
      names e = names e' ∧ ibans e = ibans e'.
Proof.
  apply generate_group_by_company_order. apply Permutation_swap.
Defined.

(** X12. The grouped frame has no empty group and no more entities than
    the frame has records: every entity has at least one name and one
    identifier, and a frame with a record gives at least one entity. *)
Theorem generate_group_by_company_groups_inhabited df :
  (∀ e, e ∈ generate_group_by_company df → names e ≠ ∅ ∧ ibans e ≠ ∅)
  ∧ length (generate_group_by_company df) ≤ length df
  ∧ (df ≠ [] → generate_group_by_company df ≠ []).
Proof.
  split_and!.
  - intros e [-> Hk]%elem_of_groups.
    apply list_elem_of_fmap in Hk as (r & Hk & Hr).
    split.
    + apply (non_empty_inhabited_L (NAME_COLUMN r)).
      apply elem_of_group_names. by exists r.
    + apply (non_empty_inhabited_L (IBAN_COLUMN r)).
      apply elem_of_group_ibans. by exists r.
  - rewrite <-(length_fmap group_key), group_keys, merge_sort_Permutation.
    etrans; [apply sublist_length, drop_duplicates_from_sublist|].
    by rewrite length_fmap.
  - intros Hdf Hnil. destruct df as [|r df]; [done|].
    destruct (group_of_record (r :: df) r) as (e & He & _); [by left|].
    rewrite Hnil in He. by apply elem_of_nil in He.
Qed.

End MoreGroupBy.

Section MoreResult.

Lemma result_mapM_Ok {A B} (f : A → result B) l ys :
  mapM f l = Ok ys → Forall2 (λ x y, f x = Ok y) l ys.
Proof.
  revert ys. induction l as [|x l IH]; intros ys.
  - intros [= <-]. constructor.
  - rewrite result_mapM_cons. destruct (f x) as [y|e] eqn:Hx; [|done]. simpl.
    destruct (mapM f l) as [k|e]; [|done]. simpl. intros [= <-].
    constructor; [done|by apply IH].
Qed.

Lemma unique_constant {A} `{EqDecision A} (k : A) (l : list A) :
  l ≠ [] → Forall (λ x, x = k) l → unique l = [k].
Proof.
  assert (∀ l seen, k ∈ seen → Forall (λ x, x = k) l →
            drop_duplicates_from id seen l = []) as Hseen.
  { clear l. intros l seen Hk H. induction H as [|x l -> _ IH]; [done|].
    cbn [drop_duplicates_from]. by rewrite decide_True. }
  destruct l as [|x l]; [done|]. intros _ [-> H]%Forall_cons_1.
  unfold unique, drop_duplicates. cbn [drop_duplicates_from].
  case_decide as Hin; [by apply elem_of_nil in Hin|].
  f_equal. apply Hseen; [by left|done].
Qed.

End MoreResult.

Section MoreMatching.

Variable basename : string → string.
Variable token_set_ratio : string → string → Z.

Implicit Types (df : list NRow) (u : list string).

(** X13. [generate_company_match] adds the [COMPANY] column and nothing
    else: when it returns, the rows are those it was given, in their order,
    each with the match of its [NORM_NAME_IBAN]; it returns whenever the
    universe is not empty or the frame is empty; and on a frame with a row
    and an empty universe it ends with [ValueError]. *)
Theorem generate_company_match_outcome (keyed : list KRow) u :
  (∀ matched, generate_company_match token_set_ratio keyed u = Ok matched →
     mrow_base <$> matched = keyed
     ∧ Forall (λ m : MRow, get_company_match token_set_ratio (NORM_NAME_IBAN m) u
                           = Ok (COMPANY m)) matched)
  ∧ (u ≠ [] ∨ keyed = [] →
     ∃ matched, generate_company_match token_set_ratio keyed u = Ok matched)
  ∧ (u = [] → keyed ≠ [] →
     generate_company_match token_set_ratio keyed u = Raise ValueError).
Proof.
  split_and!.
  - intros matched H. apply result_mapM_Ok in H.
    induction H as [|r m keyed matched Hm _ [IH1 IH2]]; [done|].
    destruct (get_company_match token_set_ratio (NORM_NAME_IBAN r) u) as [c|e] eqn:Hc;
      [|done].
    simpl in Hm. injection Hm as <-. split.
    + rewrite fmap_cons. by f_equal.
    + constructor; [done|done].
  - intros [Hu| ->]; [by apply generate_company_match_total|by eexists].
  - intros -> Hk. by destruct keyed.
Qed.

Lemma matched_frame df :
  ∃ matched,
    generate_company_match token_set_ratio (keyed_frame basename df)
      (canonical_universe basename df) = Ok matched
    ∧ process_entity_resolution basename token_set_ratio df
      = Ok (generate_group_by_company matched)
    ∧ (λ m : MRow, nrow_base m) <$> matched = nrow_base <$> df
    ∧ Forall (λ m : MRow, ∃ r, r ∈ df
                ∧ COMPANY m = display_name (canonical_candidate_key basename r))
        matched.
Proof.
  assert (∃ matched,
    generate_company_match token_set_ratio (keyed_frame basename df)
      (canonical_universe basename df) = Ok matched) as [matched Hm].
  { destruct df as [|r df]; [by eexists|].
    apply generate_company_match_total. intros Hnil.
    assert (canonical_candidate_key basename r
            ∈ canonical_universe basename (r :: df)) as Hin.
    { apply elem_of_canonical_universe. exists r. split; [by left|done]. }
    rewrite Hnil in Hin. by apply elem_of_nil in Hin. }
  exists matched. split_and!; [done| | |].
  - unfold process_entity_resolution.
    fold (keyed_frame basename df). fold (canonical_universe basename df).
    by rewrite Hm.
  - apply result_mapM_Ok in Hm.
    assert (mrow_base <$> matched = keyed_frame basename df) as Hb.
    { induction Hm as [|r m keyed matched' Hr _ IH]; [done|].
      destruct (get_company_match _ _ _); [|done]. simpl in Hr.
      injection Hr as <-. rewrite fmap_cons. by f_equal. }
    transitivity ((λ k : KRow, nrow_base k) <$> (mrow_base <$> matched)).
    { by rewrite <-list_fmap_compose. }
    rewrite Hb. unfold keyed_frame, generate_name_iban_normalized,
      remove_terms_name_company.
    rewrite <-!list_fmap_compose. done.
  - apply result_mapM_Ok in Hm. apply Forall_forall. intros m Hin.
    apply list_elem_of_lookup in Hin as [j Hj].
    destruct (Forall2_lookup_r _ _ _ _ _ Hm Hj) as (r & _ & Hr).
    destruct (get_company_match_best token_set_ratio (NORM_NAME_IBAN r)
                (canonical_universe basename df)) as (i & best & Hbest & Hgc).
    { intros Hnil. by rewrite Hnil in Hr. }
    rewrite Hgc in Hr. simpl in Hr. injection Hr as <-.
    destruct Hbest as (Hi & _).
    apply list_elem_of_lookup_2, elem_of_canonical_universe in Hi as (r0 & ? & ->).
    by exists r0.
Qed.

End MoreMatching.

Section Resolution.

Variable INVALID : string.
Variable basename : string → string.
Variable token_set_ratio : string → string → Z.

Implicit Types (df : list NRow) (u : list string).

Lemma groups_names_union (matched : list MRow) :
  ⋃ (names <$> generate_group_by_company matched)
  = list_to_set ((λ r : MRow, NAME_COLUMN r) <$> matched).
Proof.
  apply set_eq. intros x.
  rewrite elem_of_union_list, elem_of_list_to_set, list_elem_of_fmap. split.
  - intros (X & (e & -> & [-> _]%elem_of_groups)%list_elem_of_fmap & Hx).
    apply elem_of_group_names in Hx as (r & ? & _ & ?). by exists r.
  - intros (r & -> & Hr).
    destruct (group_of_record matched r Hr) as (e & He & _ & Hn & _).
    exists (names e). split; [|done]. apply list_elem_of_fmap. by exists e.
Qed.

Lemma groups_ibans_union (matched : list MRow) :
  ⋃ (ibans <$> generate_group_by_company matched)
  = list_to_set ((λ r : MRow, IBAN_COLUMN r) <$> matched).
Proof.
  apply set_eq. intros x.
  rewrite elem_of_union_list, elem_of_list_to_set, list_elem_of_fmap. split.
  - intros (X & (e & -> & [-> _]%elem_of_groups)%list_elem_of_fmap & Hx).
    apply elem_of_group_ibans in Hx as (r & ? & _ & ?). by exists r.
  - intros (r & -> & Hr).
    destruct (group_of_record matched r Hr) as (e & He & _ & _ & Hi & _).
    exists (ibans e). split; [|done]. apply list_elem_of_fmap. by exists e.
Qed.

Lemma matched_columns (matched : list MRow) df :
  (λ m : MRow, nrow_base m) <$> matched = nrow_base <$> df →
  (λ r : MRow, NAME_COLUMN r) <$> matched = (λ r : NRow, NAME_COLUMN r) <$> df
  ∧ (λ r : MRow, IBAN_COLUMN r) <$> matched = (λ r : NRow, IBAN_COLUMN r) <$> df.
Proof.
  intros H. split.
  - transitivity (NAME_COLUMN <$> ((λ m : MRow, nrow_base m) <$> matched)).
    { by rewrite <-list_fmap_compose. }
    by rewrite H, <-list_fmap_compose.
  - transitivity (IBAN_COLUMN <$> ((λ m : MRow, nrow_base m) <$> matched)).
    { by rewrite <-list_fmap_compose. }
    by rewrite H, <-list_fmap_compose.
Qed.

Lemma get_company_match_singleton q k :
  get_company_match token_set_ratio q [k] = Ok (display_name k).
Proof. done. Qed.

Lemma matched_nonempty (matched : list MRow) df :
  (λ m : MRow, nrow_base m) <$> matched = nrow_base <$> df → df ≠ [] →
  generate_group_by_company matched ≠ [].
Proof.
  intros Hb Hdf Hnil. destruct matched as [|m matched]; [by destruct df|].
  destruct (group_of_record (m :: matched) m) as (e & He & _); [by left|].
  rewrite Hnil in He. by apply elem_of_nil in He.
Qed.

(** X14. On a frame with a record, entity resolution returns, with at
    least one entity: the matcher is never given an empty universe.  And
    the key of every entity is the name the matcher makes of the candidate
    key of one of the records: what [get_company_match] returns, for any
    query, on the universe made of that candidate key alone. *)
Theorem process_entity_resolution_keys df :
  df ≠ [] →
  ∃ out, process_entity_resolution basename token_set_ratio df = Ok out
    ∧ out ≠ []
    ∧ ∀ e, e ∈ out →
        ∃ r, r ∈ df
          ∧ ∀ q, get_company_match token_set_ratio q
                   [ canonical_candidate_key basename r ] = Ok (group_key e).
Proof.
  intros Hdf.
  destruct (matched_frame basename token_set_ratio df)
    as (matched & _ & -> & Hb & Hall).
  eexists; split_and!; [done|by eapply matched_nonempty|]. intros e He.
  assert (group_key e ∈ COMPANY <$> matched) as Hk.
  { apply elem_of_group_keys, list_elem_of_fmap. by exists e. }
  apply list_elem_of_fmap in Hk as (m & -> & Hm).
  rewrite Forall_forall in Hall. destruct (Hall m Hm) as (r & Hr & ->).
  exists r. split; [done|]. intros q. apply get_company_match_singleton.
Qed.

(** X15. Entity resolution loses no record: on a frame with a record, the
    names of the entities it returns are, together, the names of the frame,
    and their identifiers the identifiers of the frame. *)
Theorem process_entity_resolution_conserves df :
  df ≠ [] →
  ∃ out, process_entity_resolution basename token_set_ratio df = Ok out
    ∧ ⋃ (names <$> out) = list_to_set ((λ r : NRow, NAME_COLUMN r) <$> df)
    ∧ ⋃ (ibans <$> out) = list_to_set ((λ r : NRow, IBAN_COLUMN r) <$> df).
Proof.
  intros _.
  destruct (matched_frame basename token_set_ratio df)
    as (matched & _ & -> & Hb & _).
  destruct (matched_columns _ _ Hb) as [Hn Hi].
  eexists; split; [done|].
  by rewrite groups_names_union, groups_ibans_union, Hn, Hi.
Qed.

(** X16. When all the records of a frame have the same candidate key, the
    frame resolves to one entity, whatever [token_set_ratio] is: its key is
    the name the matcher makes of that candidate key (what
    [get_company_match] returns, for any query, on the universe made of
    that key alone) and it has all the names and identifiers of the
    frame. *)
Theorem process_entity_resolution_one_key df k :
  df ≠ [] →
  (∀ r, r ∈ df → canonical_candidate_key basename r = k) →
  ∃ company,
    (∀ q, get_company_match token_set_ratio q [ k ] = Ok company)
    ∧ process_entity_resolution basename token_set_ratio df
      = Ok [ {| group_key := company;
                names := list_to_set ((λ r : NRow, NAME_COLUMN r) <$> df);
                ibans := list_to_set ((λ r : NRow, IBAN_COLUMN r) <$> df) |} ].
Proof.
  intros Hdf Hk. exists (display_name k).
  split; [intros q; apply get_company_match_singleton|].
  destruct (matched_frame basename token_set_ratio df)
    as (matched & _ & -> & Hb & Hall).
  destruct (matched_columns _ _ Hb) as [Hn Hi].
  assert (Forall (λ m : MRow, COMPANY m = display_name k) matched) as Hc.
  { eapply Forall_impl; [exact Hall|]. intros m (r & Hr & ->). simpl.
    by rewrite (Hk r Hr). }
  assert (matched ≠ []) as Hm.
  { intros ->. by destruct df. }
  f_equal. rewrite generate_group_by_company_groups.
  rewrite (unique_constant (display_name k)).
  - change (merge_sort String.le [display_name k]) with [display_name k].
    rewrite list_fmap_singleton. f_equal. unfold group_of.
    rewrite (filter_fixed _ matched) by done. by rewrite Hn, Hi.
  - by destruct matched.
  - by apply Forall_fmap.
Qed.

End Resolution.

Section TwoStages.

Variable INVALID : string.
Variable basename : string → string.
Variable token_set_ratio : string → string → Z.

Lemma deduplicated_sound data (r : NRow) :
  r ∈ drop_duplicates (λ r : NRow, (NORM_NAME r, IBAN_COLUMN r))
        (omap (clean_row INVALID) data) →
  as_raw r ∈ data ∧ IBAN_COLUMN r ≠ INVALID
  ∧ NORM_NAME r = normalize_text (NAME_COLUMN r).
Proof.
  intros Hr. eapply elem_of_sublist in Hr; [|apply drop_duplicates_from_sublist].
  apply list_elem_of_omap in Hr as (raw & Hraw & Hc).
  by apply clean_row_Some in Hc as (-> & ? & ?).
Qed.

Lemma deduplicated_complete data raw n i :
  raw ∈ data → NAME_CELL raw = Some n → IBAN_CELL raw = Some i → i ≠ INVALID →
  ∃ r : NRow,
    r ∈ drop_duplicates (λ r : NRow, (NORM_NAME r, IBAN_COLUMN r))
          (omap (clean_row INVALID) data)
    ∧ NORM_NAME r = normalize_text n ∧ IBAN_COLUMN r = i.
Proof.
  intros Hraw Hn Hi Hne.
  set (key := λ r : NRow, (NORM_NAME r, IBAN_COLUMN r)).
  set (r' := {| nrow_base := {| NAME_COLUMN := n; IBAN_COLUMN := i |};
                NORM_NAME := normalize_text n |}).
  assert (r' ∈ omap (clean_row INVALID) data) as Hr'.
  { apply list_elem_of_omap. exists raw. split; [done|].
    apply clean_row_Some. split_and!; [|done..].
    destruct raw as [? ?]. simpl in *. by subst. }
  pose proof (drop_duplicates_from_complete key [] _ r' Hr') as Hk.
  apply list_elem_of_fmap in Hk as (r & Hk & Hr); [|apply not_elem_of_nil].
  exists r. split; [done|]. unfold key in Hk. by injection Hk as <- <-.
Qed.

(** X17. What the two stages do together, from the raw rows of a file to
    the entities, when a row of the file has both cells present and an
    identifier other than [INVALID]: both return; the identifiers of the
    entities are exactly the identifiers of such rows; every name of an
    entity is the name of such a row; and every such row has, among the
    names of the entities, a name with its normalized name. *)
Theorem pipeline_conserves files file_path data :
  files !! file_path = Some data →
  (∃ raw n i, raw ∈ data ∧ NAME_CELL raw = Some n
              ∧ IBAN_CELL raw = Some i ∧ i ≠ INVALID) →
  ∃ deduplicated entities,
    process_duplicate_removal INVALID files file_path = Ok deduplicated
    ∧ process_entity_resolution basename token_set_ratio deduplicated
      = Ok entities
    ∧ (∀ i, i ∈ ⋃ (ibans <$> entities) ↔
         ∃ raw n, raw ∈ data ∧ NAME_CELL raw = Some n
                  ∧ IBAN_CELL raw = Some i ∧ i ≠ INVALID)
    ∧ (∀ x, x ∈ ⋃ (names <$> entities) →
         ∃ raw i, raw ∈ data ∧ NAME_CELL raw = Some x
                  ∧ IBAN_CELL raw = Some i ∧ i ≠ INVALID)
    ∧ (∀ raw n i, raw ∈ data → NAME_CELL raw = Some n →
         IBAN_CELL raw = Some i → i ≠ INVALID →
         ∃ x, x ∈ ⋃ (names <$> entities) ∧ normalize_text x = normalize_text n).
Proof.
  intros Hfile _.
  rewrite (process_duplicate_removal_omap _ _ _ _ Hfile).
  set (d := drop_duplicates _ _).
  destruct (matched_frame basename token_set_ratio d)
    as (matched & _ & Hper & Hb & _).
  destruct (matched_columns _ _ Hb) as [Hn Hi].
  exists d, (generate_group_by_company matched). split; [done|].
  split; [done|].
  rewrite groups_names_union, groups_ibans_union, Hn, Hi. split_and!.
  - intros i. rewrite elem_of_list_to_set, list_elem_of_fmap. split.
    + intros (r & -> & Hr). apply deduplicated_sound in Hr as (Hraw & ? & _).
      by exists (as_raw r), (NAME_COLUMN r).
    + intros (raw & n & Hraw & Hname & Hiban & Hne).
      destruct (deduplicated_complete _ _ _ _ Hraw Hname Hiban Hne)
        as (r & Hr & _ & <-).
      by exists r.
  - intros x. rewrite elem_of_list_to_set, list_elem_of_fmap.
    intros (r & -> & Hr). apply deduplicated_sound in Hr as (Hraw & ? & _).
    by exists (as_raw r), (IBAN_COLUMN r).
  - intros raw n i Hraw Hname Hiban Hne.
    destruct (deduplicated_complete _ _ _ _ Hraw Hname Hiban Hne)
      as (r & Hr & Hnorm & _).
    exists (NAME_COLUMN r). split.
    + rewrite elem_of_list_to_set, list_elem_of_fmap. by exists r.
    + apply deduplicated_sound in Hr as (_ & _ & <-). done.
Qed.

End TwoStages.

Section ExtraWitnesses.


Lemma process_duplicate_removal_idempotent_witness :
  process_duplicate_removal "XX"
    {[ "again.csv" := (λ r : NRow, as_raw r) <$> acme_deduplicated ]} "again.csv"
  = Ok acme_deduplicated.
Proof.
  apply (process_duplicate_removal_idempotent "XX" acme_files "input.csv"
           acme_rows acme_deduplicated); [done|by vm_compute|done].
Defined.

Lemma process_duplicate_removal_complete_witness :
  ∃ out, process_duplicate_removal "XX" acme_files "input.csv" = Ok out
    ∧ length out ≤ length acme_rows
    ∧ ∀ raw n i, raw ∈ acme_rows →
        NAME_CELL raw = Some n → IBAN_CELL raw = Some i → i ≠ "XX" →
        ∃ r : NRow, r ∈ out ∧ NORM_NAME r = normalize_text n ∧ IBAN_COLUMN r = i.
Proof.
  apply (process_duplicate_removal_complete "XX" acme_files "input.csv" acme_rows).
  done.
Defined.

Lemma process_entity_resolution_one_key_witness :
  ∃ company,
    (∀ q, get_company_match exact_match_ratio q [ "acme DE0" ] = Ok company)
    ∧ process_entity_resolution lexicon_basename exact_match_ratio
        acme_deduplicated
      = Ok [ {| group_key := company;
                names := list_to_set
                           ((λ r : NRow, NAME_COLUMN r) <$> acme_deduplicated);
                ibans := list_to_set
                           ((λ r : NRow, IBAN_COLUMN r) <$> acme_deduplicated) |} ].
Proof.
  apply (process_entity_resolution_one_key lexicon_basename exact_match_ratio
           acme_deduplicated "acme DE0"); [done|].
  intros r Hr. repeat (apply elem_of_cons in Hr as [->|Hr]; [done|]).
  by apply elem_of_nil in Hr.
Defined.

Lemma process_entity_resolution_keys_witness :
  acme_deduplicated ≠ []
  ∧ ∃ out, process_entity_resolution lexicon_basename exact_match_ratio
             acme_deduplicated = Ok out
      ∧ out ≠ []
      ∧ ∀ e, e ∈ out →
          ∃ r, r ∈ acme_deduplicated
            ∧ ∀ q, get_company_match exact_match_ratio q
                     [ canonical_candidate_key lexicon_basename r ]
                   = Ok (group_key e).
Proof.
  split; [done|].
  by apply (process_entity_resolution_keys lexicon_basename exact_match_ratio
              acme_deduplicated).
Defined.

Lemma process_entity_resolution_conserves_witness :
  acme_deduplicated ≠ []
  ∧ ∃ out, process_entity_resolution lexicon_basename exact_match_ratio
             acme_deduplicated = Ok out
      ∧ ⋃ (names <$> out)
        = list_to_set ((λ r : NRow, NAME_COLUMN r) <$> acme_deduplicated)
      ∧ ⋃ (ibans <$> out)
        = list_to_set ((λ r : NRow, IBAN_COLUMN r) <$> acme_deduplicated).
Proof.
  split; [done|].
  by apply (process_entity_resolution_conserves lexicon_basename
              exact_match_ratio acme_deduplicated).
Defined.

Lemma pipeline_conserves_witness :
  ∃ deduplicated entities,
    process_duplicate_removal "XX" acme_files "input.csv" = Ok deduplicated
    ∧ process_entity_resolution lexicon_basename exact_match_ratio deduplicated
      = Ok entities
    ∧ (∀ i, i ∈ ⋃ (ibans <$> entities) ↔
         ∃ raw n, raw ∈ acme_rows ∧ NAME_CELL raw = Some n
                  ∧ IBAN_CELL raw = Some i ∧ i ≠ "XX")
    ∧ (∀ x, x ∈ ⋃ (names <$> entities) →
         ∃ raw i, raw ∈ acme_rows ∧ NAME_CELL raw = Some x
                  ∧ IBAN_CELL raw = Some i ∧ i ≠ "XX")
    ∧ (∀ raw n i, raw ∈ acme_rows → NAME_CELL raw = Some n →
         IBAN_CELL raw = Some i → i ≠ "XX" →
         ∃ x, x ∈ ⋃ (names <$> entities) ∧ normalize_text x = normalize_text n).
Proof.
  apply (pipeline_conserves "XX" lexicon_basename exact_match_ratio acme_files
           "input.csv" acme_rows); [done|].
  exists {| NAME_CELL := Some "acme"; IBAN_CELL := Some "DE003" |}, "acme", "DE003".
  split_and!; [|done..]. do 2 right. by left.
Defined.

End ExtraWitnesses.

